(** * Redux to-do list: the tasks slice, its persistence and its derived view

    A shallow embedding of [src/REDUXCHECPOINT.jsx].

    - JavaScript strings are Rocq strings: a character is one code unit in
      the range 0..255.
    - A task is a record; the slice state is a record holding the array of
      tasks and the filter, which the code keeps as a plain string.
    - The reducers are written with Immer: each one is a function from the
      state and the action's payload to the next state.
    - [nanoid()] draws a random identifier; the drawn value is an argument
      of the action creator.
    - What goes through [localStorage] is a JSON text: the JavaScript values
      of that boundary are the trees of [value], with [JSON.stringify] and
      [JSON.parse] written out for them. Numbers are left out: no state of
      the program holds one. *)

From Stdlib Require Import Ascii String.
From stdpp Require Import base option list strings gmap.

Local Open Scope string_scope.
Local Open Scope list_scope.

(** ** Strings *)

Module JsString.

(** White space and line terminators of ECMAScript among the code units
    below 256: TAB, LF, VT, FF, CR, SP and NBSP. *)
Definition isWhiteSpace (c : ascii) : bool :=
  match nat_of_ascii c with
  | 9 | 10 | 11 | 12 | 13 | 32 | 160 => true
  | _ => false
  end.

Fixpoint trimStart_chars (l : list ascii) : list ascii :=
  match l with
  | c :: l' => if isWhiteSpace c then trimStart_chars l' else l
  | [] => []
  end.

Definition trimEnd_chars (l : list ascii) : list ascii :=
  rev (trimStart_chars (rev l)).

(** [String.prototype.trim] *)
Definition trim (s : string) : string :=
  string_of_list_ascii
    (trimEnd_chars (trimStart_chars (list_ascii_of_string s))).

(** A string is truthy when it is not empty. *)
Definition truthy (s : string) : bool :=
  match s with
  | EmptyString => false
  | String _ _ => true
  end.

End JsString.

Import JsString.

(** ** Data model *)

Record Task := mkTask {
  id : string;
  description : string;
  isDone : bool;
}.

Record TasksState := mkTasksState {
  items : list Task;
  filter : string;
}.

(** The root state of the store: [{ tasks: ... }]. *)
Record RootState := mkRootState {
  tasks : TasksState;
}.

(** ** The tasks slice *)

Module tasksSlice.

(** [addTask.prepare]: the payload built from the drawn identifier and the
    description. *)
Definition addTask_prepare (nanoid : string) (description : string) : Task :=
  {| id := nanoid; description := trim description; isDone := false |}.

(** [addTask.reducer]: [state.items.unshift(action.payload)]. *)
Definition addTask_reducer (state : TasksState) (payload : Task) : TasksState :=
  {| items := payload :: items state; filter := filter state |}.

(** [state.items.find((x) => x.id === wanted)]: the first match, with its
    index in the array. *)
Definition find_by_id (wanted : string) (l : list Task) : option (nat * Task) :=
  list_find (λ x, id x = wanted) l.

Definition toggleDone (state : TasksState) (payload : string) : TasksState :=
  match find_by_id payload (items state) with
  | Some (k, t) =>
      {| items :=
           <[k := {| id := id t; description := description t;
                     isDone := negb (isDone t) |}]> (items state);
         filter := filter state |}
  | None => state
  end.

Definition editTask (state : TasksState) (payload : string * string) : TasksState :=
  let '(wanted, d) := payload in
  match find_by_id wanted (items state) with
  | Some (k, t) =>
      if truthy (trim d) then
        {| items :=
             <[k := {| id := id t; description := trim d;
                       isDone := isDone t |}]> (items state);
           filter := filter state |}
      else state
  | None => state
  end.

Definition setFilter (state : TasksState) (payload : string) : TasksState :=
  {| items := items state; filter := payload |}.

Definition clearAll (state : TasksState) : TasksState :=
  {| items := []; filter := filter state |}.

End tasksSlice.

(** ** Actions and the store's reducer *)

(** The actions of the slice, each with its payload. *)
Inductive Action :=
| AddTaskAction (payload : Task)
| ToggleDoneAction (payload : string)
| EditTaskAction (payload : string * string)
| SetFilterAction (payload : string)
| ClearAllAction.

(** The action creators of [tasksSlice.actions]. [addTask] runs [prepare];
    its first argument is the value [nanoid()] returns in that call. *)
Definition addTask (nanoid : string) (description : string) : Action :=
  AddTaskAction (tasksSlice.addTask_prepare nanoid description).

Definition toggleDone (wanted : string) : Action := ToggleDoneAction wanted.

Definition editTask (wanted description : string) : Action :=
  EditTaskAction (wanted, description).

Definition setFilter (value : string) : Action := SetFilterAction value.

Definition clearAll : Action := ClearAllAction.

(** [tasksSlice.reducer] *)
Definition tasks_reducer (state : TasksState) (action : Action) : TasksState :=
  match action with
  | AddTaskAction p => tasksSlice.addTask_reducer state p
  | ToggleDoneAction p => tasksSlice.toggleDone state p
  | EditTaskAction p => tasksSlice.editTask state p
  | SetFilterAction p => tasksSlice.setFilter state p
  | ClearAllAction => tasksSlice.clearAll state
  end.

(** The root reducer of [configureStore({ reducer: { tasks: ... } })], and
    [store.dispatch] on the state it holds. *)
Definition dispatch (state : RootState) (action : Action) : RootState :=
  {| tasks := tasks_reducer (tasks state) action |}.

(** ** The view *)

(** [AddTask]: the component's [text] and the store; [onSubmit] returns both
    as they are after the handler. *)
Definition AddTask_onSubmit (nanoid : string) (text : string) (state : RootState)
  : string * RootState :=
  if Nat.eqb (String.length (trim text)) 0 then (text, state)
  else ("", dispatch state (addTask nanoid text)).

(** [ListTask]: the list computed by [useMemo] from [items] and [filter]. *)
Definition ListTask_filtered (items : list Task) (filter : string) : list Task :=
  if String.eqb filter "done" then List.filter (λ t, isDone t) items
  else if String.eqb filter "not" then List.filter (λ t, negb (isDone t)) items
  else items.

(** ** The state invariant of the data model *)

Definition ids (l : list Task) : list string := id <$> l.

Definition valid_filter (f : string) : Prop :=
  f = "all" ∨ f = "done" ∨ f = "not".

Definition state_invariant (state : TasksState) : Prop :=
  NoDup (ids (items state)) ∧ valid_filter (filter state).

(** The subsequence of [l] made of the elements that satisfy [p], in the
    words of the specification: each element is kept when it satisfies [p]
    and dropped when it does not, and the order is that of [l]. *)
Inductive subsequence_where {A} (p : A → bool) : list A → list A → Prop :=
| sw_nil : subsequence_where p [] []
| sw_keep x l l' :
    p x = true → subsequence_where p l l' → subsequence_where p (x :: l) (x :: l')
| sw_drop x l l' :
    p x = false → subsequence_where p l l' → subsequence_where p (x :: l) l'.

(** ** JavaScript values at the persistence boundary *)

(** The values JSON texts denote, without numbers: the states the program
    writes hold strings, booleans, arrays and objects only. An object is the
    list of its properties in creation order (JavaScript lists a property
    whose name is an array index before the others; the states have none). *)
#[local] Unset Elimination Schemes.
Inductive value :=
| VNull
| VBool (b : bool)
| VString (s : string)
| VArray (l : list value)
| VObject (l : list (string * value)).
#[local] Set Elimination Schemes.

(** What a property read can give besides such a value: [undefined], and the
    method every array inherits under the name [filter]. *)
Inductive jsval :=
| Undefined
| Val (v : value)
| ArrayPrototypeFilter.

(** A call either returns or throws. *)
Inductive completion (A : Type) :=
| Normal (a : A)
| Throw.
Arguments Normal {A} a.
Arguments Throw {A}.

Definition truthy_value (v : value) : bool :=
  match v with
  | VNull => false
  | VBool b => b
  | VString s => truthy s
  | VArray _ | VObject _ => true
  end.

Definition truthy_jsval (x : jsval) : bool :=
  match x with
  | Undefined => false
  | Val v => truthy_value v
  | ArrayPrototypeFilter => true
  end.

(** The own property [k] of an object given by its property list. *)
Fixpoint own_property (k : string) (l : list (string * value)) : option value :=
  match l with
  | [] => None
  | (k', v) :: l' => if String.eqb k' k then Some v else own_property k l'
  end.

(** The property reads of the program: [x.tasks], [x.items] and [x.filter]
    on a value [x] that is neither [null] nor [undefined]. *)
Inductive property := P_tasks | P_items | P_filter.

Definition property_name (p : property) : string :=
  match p with
  | P_tasks => "tasks"
  | P_items => "items"
  | P_filter => "filter"
  end.

Definition get (x : value) (p : property) : jsval :=
  match x with
  | VObject l =>
      match own_property (property_name p) l with
      | Some v => Val v
      | None => Undefined
      end
  | VArray _ =>
      match p with
      | P_filter => ArrayPrototypeFilter
      | _ => Undefined
      end
  | _ => Undefined
  end.

(** [x?.p]: [undefined] when [x] is [null] or [undefined]; a function has
    none of the three properties. *)
Definition optional_get (x : jsval) (p : property) : jsval :=
  match x with
  | Undefined | Val VNull => Undefined
  | Val v => get v p
  | ArrayPrototypeFilter => Undefined
  end.

(** [a || b] *)
Definition js_or (a b : jsval) : jsval := if truthy_jsval a then a else b.

(** [persisted && e], with [persisted] either [undefined] or a parsed value;
    [e] is evaluated on a truthy [persisted] only. *)
Definition persisted_and (persisted : option value) (e : value → jsval) : jsval :=
  match persisted with
  | None => Undefined
  | Some v => if truthy_value v then e v else Val v
  end.

(** ** JSON texts *)

Module JSON.

Local Open Scope char_scope.

Definition dquote : ascii := "034".
Definition backslash : ascii := "092".

Definition chars (s : string) : list ascii := list_ascii_of_string s.

(** *** JSON.stringify *)

Definition hex_digit (n : nat) : ascii :=
  if Nat.ltb n 10 then ascii_of_nat (48 + n) else ascii_of_nat (87 + n).

(** One code unit inside a quoted string. *)
Definition quote_char (c : ascii) : list ascii :=
  match nat_of_ascii c with
  | 8 => [backslash; "b"]
  | 9 => [backslash; "t"]
  | 10 => [backslash; "n"]
  | 12 => [backslash; "f"]
  | 13 => [backslash; "r"]
  | 34 => [backslash; dquote]
  | 92 => [backslash; backslash]
  | n =>
      if Nat.ltb n 32
      then [backslash; "u"; "0"; "0"; hex_digit (n / 16); hex_digit (n mod 16)]
      else [c]
  end.

Definition quote_chars (l : list ascii) : list ascii :=
  flat_map quote_char l.

Definition quote (s : string) : list ascii :=
  dquote :: quote_chars (chars s) ++ [dquote].

Fixpoint stringify_chars (v : value) : list ascii :=
  match v with
  | VNull => chars "null"
  | VBool true => chars "true"
  | VBool false => chars "false"
  | VString s => quote s
  | VArray l =>
      "[" ::
      match l with
      | [] => []
      | x :: l' =>
          stringify_chars x ++
          (fix more (l : list value) : list ascii :=
             match l with
             | [] => []
             | y :: l' => "," :: stringify_chars y ++ more l'
             end) l'
      end ++ ["]"]
  | VObject l =>
      "{" ::
      match l with
      | [] => []
      | (k, x) :: l' =>
          quote k ++ ":" :: stringify_chars x ++
          (fix more (l : list (string * value)) : list ascii :=
             match l with
             | [] => []
             | (k, y) :: l' => "," :: quote k ++ ":" :: stringify_chars y ++ more l'
             end) l'
      end ++ ["}"]
  end.

Definition stringify (v : value) : string :=
  string_of_list_ascii (stringify_chars v).

(** *** JSON.parse *)

Definition is_ws (c : ascii) : bool :=
  match nat_of_ascii c with
  | 9 | 10 | 13 | 32 => true
  | _ => false
  end.

Fixpoint skip_ws (s : list ascii) : list ascii :=
  match s with
  | c :: r => if is_ws c then skip_ws r else s
  | [] => []
  end.

Definition first_is (c : ascii) (s : list ascii) : bool :=
  match s with
  | c' :: _ => Ascii.eqb c' c
  | [] => false
  end.

Fixpoint strip_prefix (p s : list ascii) : option (list ascii) :=
  match p, s with
  | [], _ => Some s
  | c :: p', c' :: s' => if Ascii.eqb c c' then strip_prefix p' s' else None
  | _ :: _, [] => None
  end.

Definition hex_value (c : ascii) : option nat :=
  let n := nat_of_ascii c in
  if Nat.leb 48 n && Nat.leb n 57 then Some (n - 48)
  else if Nat.leb 97 n && Nat.leb n 102 then Some (n - 87)
  else if Nat.leb 65 n && Nat.leb n 70 then Some (n - 55)
  else None.

Definition hex4 (a b c d : ascii) : option nat :=
  match hex_value a, hex_value b, hex_value c, hex_value d with
  | Some x, Some y, Some z, Some w => Some (((x * 16 + y) * 16 + z) * 16 + w)
  | _, _, _, _ => None
  end.

(** The character a one-letter escape stands for. *)
Definition unescape (e : ascii) : option ascii :=
  if Ascii.eqb e dquote then Some dquote
  else if Ascii.eqb e backslash then Some backslash
  else if Ascii.eqb e "/" then Some "/"
  else if Ascii.eqb e "b" then Some "008"
  else if Ascii.eqb e "f" then Some "012"
  else if Ascii.eqb e "n" then Some "010"
  else if Ascii.eqb e "r" then Some "013"
  else if Ascii.eqb e "t" then Some "009"
  else None.

(** The characters of a string up to its closing quote, and what follows
    the quote. A [\u] escape above 255 is outside the strings modelled. *)
Fixpoint parse_string_chars (s : list ascii) : option (list ascii * list ascii) :=
  match s with
  | [] => None
  | c :: r =>
      if Ascii.eqb c dquote then Some ([], r)
      else if Ascii.eqb c backslash then
        match r with
        | [] => None
        | e :: r' =>
            if Ascii.eqb e "u" then
              match r' with
              | h1 :: h2 :: h3 :: h4 :: r'' =>
                  match hex4 h1 h2 h3 h4 with
                  | Some n =>
                      if Nat.ltb n 256 then
                        match parse_string_chars r'' with
                        | Some (str, rest) => Some (ascii_of_nat n :: str, rest)
                        | None => None
                        end
                      else None
                  | None => None
                  end
              | _ => None
              end
            else
              match unescape e with
              | Some c' =>
                  match parse_string_chars r' with
                  | Some (str, rest) => Some (c' :: str, rest)
                  | None => None
                  end
              | None => None
              end
        end
      else if Nat.ltb (nat_of_ascii c) 32 then None
      else
        match parse_string_chars r with
        | Some (str, rest) => Some (c :: str, rest)
        | None => None
        end
  end.

(** A quoted string, after white space. *)
Definition parse_string (s : list ascii) : option (string * list ascii) :=
  match skip_ws s with
  | c :: r =>
      if Ascii.eqb c dquote then
        match parse_string_chars r with
        | Some (str, rest) => Some (string_of_list_ascii str, rest)
        | None => None
        end
      else None
  | [] => None
  end.

(** A property name and the colon after it. *)
Definition parse_key (s : list ascii) : option (string * list ascii) :=
  match parse_string s with
  | Some (k, r) =>
      let r' := skip_ws r in
      if first_is ":" r' then Some (k, tail r') else None
  | None => None
  end.

(** [null], [true] or [false]. *)
Definition parse_literal (s : list ascii) : option (value * list ascii) :=
  match strip_prefix (chars "null") s with
  | Some r => Some (VNull, r)
  | None =>
      match strip_prefix (chars "true") s with
      | Some r => Some (VBool true, r)
      | None =>
          match strip_prefix (chars "false") s with
          | Some r => Some (VBool false, r)
          | None => None
          end
      end
  end.

(** Defining a property: a name already present keeps its place and takes
    the new value. *)
Fixpoint define_property (k : string) (v : value) (l : list (string * value))
  : list (string * value) :=
  match l with
  | [] => [(k, v)]
  | (k', v') :: l' =>
      if String.eqb k' k then (k', v) :: l' else (k', v') :: define_property k v l'
  end.

Definition object_of_members (ms : list (string * value)) : list (string * value) :=
  foldl (λ acc kv, define_property kv.1 kv.2 acc) [] ms.

(** The recursive descent, on a bound [fuel] for the depth of the calls;
    one more than the length of the text is enough. *)
Fixpoint parse_value (fuel : nat) (s : list ascii) : option (value * list ascii) :=
  match fuel with
  | O => None
  | S fuel =>
      let s := skip_ws s in
      if first_is dquote s then
        match parse_string s with
        | Some (str, r) => Some (VString str, r)
        | None => None
        end
      else if first_is "[" s then
        let r := skip_ws (tail s) in
        if first_is "]" r then Some (VArray [], tail r)
        else
          match parse_value fuel r with
          | Some (v, r1) =>
              match parse_elements fuel r1 with
              | Some (vs, r2) => Some (VArray (v :: vs), r2)
              | None => None
              end
          | None => None
          end
      else if first_is "{" s then
        let r := skip_ws (tail s) in
        if first_is "}" r then Some (VObject [], tail r)
        else
          match parse_key r with
          | Some (k, r1) =>
              match parse_value fuel r1 with
              | Some (v, r2) =>
                  match parse_members fuel r2 with
                  | Some (ms, r3) =>
                      Some (VObject (object_of_members ((k, v) :: ms)), r3)
                  | None => None
                  end
              | None => None
              end
          | None => None
          end
      else parse_literal s
  end
with parse_elements (fuel : nat) (s : list ascii) : option (list value * list ascii) :=
  match fuel with
  | O => None
  | S fuel =>
      let s := skip_ws s in
      if first_is "]" s then Some ([], tail s)
      else if first_is "," s then
        match parse_value fuel (tail s) with
        | Some (v, r1) =>
            match parse_elements fuel r1 with
            | Some (vs, r2) => Some (v :: vs, r2)
            | None => None
            end
        | None => None
        end
      else None
  end
with parse_members (fuel : nat) (s : list ascii)
  : option (list (string * value) * list ascii) :=
  match fuel with
  | O => None
  | S fuel =>
      let s := skip_ws s in
      if first_is "}" s then Some ([], tail s)
      else if first_is "," s then
        match parse_key (tail s) with
        | Some (k, r1) =>
            match parse_value fuel r1 with
            | Some (v, r2) =>
                match parse_members fuel r2 with
                | Some (ms, r3) => Some ((k, v) :: ms, r3)
                | None => None
                end
            | None => None
            end
        | None => None
        end
      else None
  end.

(** [JSON.parse]: [None] when the call throws. A text with a number, or
    with a code unit above 255, denotes no value of the model and gives
    [None] as well. *)
Definition parse (text : string) : option value :=
  match parse_value (S (String.length text)) (chars text) with
  | Some (v, r) =>
      match skip_ws r with
      | [] => Some v
      | _ :: _ => None
      end
  | None => None
  end.

End JSON.

(** ** The state as a JavaScript value, and back *)

Definition value_of_task (t : Task) : value :=
  VObject [("id", VString (id t));
           ("description", VString (description t));
           ("isDone", VBool (isDone t))].

Definition value_of_items (l : list Task) : value :=
  VArray (value_of_task <$> l).

Definition value_of_tasks (s : TasksState) : value :=
  VObject [("items", value_of_items (items s)); ("filter", VString (filter s))].

Definition value_of_root (s : RootState) : value :=
  VObject [("tasks", value_of_tasks (tasks s))].

(** Reading a value as a task, an array of tasks, a slice state: the
    properties by name, each of the expected kind. *)
Definition task_of_value (v : value) : option Task :=
  match v with
  | VObject l =>
      match own_property "id" l, own_property "description" l,
            own_property "isDone" l with
      | Some (VString i), Some (VString d), Some (VBool b) =>
          Some {| id := i; description := d; isDone := b |}
      | _, _, _ => None
      end
  | _ => None
  end.

Definition items_of_value (v : value) : option (list Task) :=
  match v with
  | VArray l => mapM task_of_value l
  | _ => None
  end.

Definition tasks_of_parts (vitems vfilter : jsval) : option TasksState :=
  match vitems, vfilter with
  | Val vi, Val (VString f) =>
      match items_of_value vi with
      | Some l => Some {| items := l; filter := f |}
      | None => None
      end
  | _, _ => None
  end.

Definition tasks_of_value (v : value) : option TasksState :=
  tasks_of_parts (get v P_items) (get v P_filter).

(** ** localStorage *)

(** The storage of the page: whether the page may use it at all, how long
    an item it accepts, and the items it holds. *)
Record Storage := mkStorage {
  available : bool;
  quota : nat;
  entries : gmap string string;
}.

Definition getItem (ls : Storage) (key : string) : completion (option string) :=
  if available ls then Normal (entries ls !! key) else Throw.

Definition setItem (ls : Storage) (key text : string) : completion Storage :=
  if available ls && Nat.leb (String.length text) (quota ls)
  then Normal {| available := available ls; quota := quota ls;
                 entries := <[key := text]> (entries ls) |}
  else Throw.

Definition storage_key : string := "redux_todo_state".

(** ** Rehydration and persistence *)

(** [persisted]: [None] is [undefined]. *)
Definition persisted (ls : Storage) : option value :=
  match getItem ls storage_key with
  | Normal (Some raw) =>
      if truthy raw then
        match JSON.parse raw with
        | Some v => Some v
        | None => None
        end
      else None
  | Normal None => None
  | Throw => None
  end.

(** The [initialState] of the slice: its two properties. *)
Record SliceInit := mkSliceInit {
  initial_items : jsval;
  initial_filter : jsval;
}.

Definition initialState (persisted : option value) : SliceInit :=
  {| initial_items :=
       js_or (persisted_and persisted (λ p, optional_get (get p P_tasks) P_items))
             (Val (VArray []));
     initial_filter :=
       js_or (persisted_and persisted (λ p, optional_get (get p P_tasks) P_filter))
             (Val (VString "all")) |}.

(** The state of the slice when the store has been built: Redux hands the
    reducer [preloadedState.tasks], and the reducer falls back on its
    [initialState] when that is [undefined]. Reading a property of [null]
    throws. *)
Inductive SliceStart :=
| FromInitialState (s : SliceInit)
| FromPreloadedState (x : jsval).

Definition configureStore (preloadedState : option value) : completion SliceStart :=
  match preloadedState with
  | None => Normal (FromInitialState (initialState preloadedState))
  | Some VNull => Throw
  | Some p =>
      match get p P_tasks with
      | Undefined => Normal (FromInitialState (initialState preloadedState))
      | x => Normal (FromPreloadedState x)
      end
  end.

(** The store at startup over a given storage. *)
Definition store (ls : Storage) : completion SliceStart :=
  configureStore (persisted ls).

(** The slice state the store starts in, read as a [TasksState]. *)
Definition tasks_of_start (s : SliceStart) : option TasksState :=
  match s with
  | FromInitialState i => tasks_of_parts (initial_items i) (initial_filter i)
  | FromPreloadedState (Val v) => tasks_of_value v
  | FromPreloadedState _ => None
  end.

(** The subscriber: what the storage is after the listener has run in
    state [state]. A write that throws leaves the storage as it was. *)
Definition subscriber (state : RootState) (ls : Storage) : Storage :=
  match setItem ls storage_key (JSON.stringify (value_of_root state)) with
  | Normal ls' => ls'
  | Throw => ls
  end.

(** The empty default state. *)
Definition default_state : TasksState := {| items := []; filter := "all" |}.

(** What the store expects of an action it is handed: the identifier drawn
    for a new task is not in use, and the filter is one of the three. *)
Definition expected_action (state : TasksState) (action : Action) : Prop :=
  match action with
  | AddTaskAction p => id p ∉ ids (items state)
  | SetFilterAction v => valid_filter v
  | _ => True
  end.

(** [t] with its flag negated, and [t] with another description. *)
Definition flipped (t : Task) : Task :=
  {| id := id t; description := description t; isDone := negb (isDone t) |}.

Definition described (d : string) (t : Task) : Task :=
  {| id := id t; description := d; isDone := isDone t |}.

(** A value as JSON texts denote them: no object has two properties of the
    same name. *)
Fixpoint well_formed (v : value) : Prop :=
  match v with
  | VNull | VBool _ | VString _ => True
  | VArray l =>
      (fix all (l : list value) : Prop :=
         match l with
         | [] => True
         | x :: l' => well_formed x ∧ all l'
         end) l
  | VObject l =>
      NoDup (l.*1) ∧
      (fix all (l : list (string * value)) : Prop :=
         match l with
         | [] => True
         | kx :: l' => well_formed kx.2 ∧ all l'
         end) l
  end.

(** The text of the elements of an array after the first, and of the
    members of an object after the first, as [JSON.stringify] writes them. *)
Fixpoint more_elements (l : list value) : list ascii :=
  match l with
  | [] => []
  | y :: l' => ","%char :: JSON.stringify_chars y ++ more_elements l'
  end.

Fixpoint more_members (l : list (string * value)) : list ascii :=
  match l with
  | [] => []
  | (k, y) :: l' =>
      ","%char :: JSON.quote k ++ ":"%char :: JSON.stringify_chars y ++ more_members l'
  end.

(** A text that begins as the text of a value does: with a character that
    is neither white space nor a closing bracket, a closing brace or a
    comma. *)
Definition starts_value (s : list ascii) : Prop :=
  ∃ c tl, s = c :: tl ∧ JSON.is_ws c = false ∧
          Ascii.eqb c "]" = false ∧ Ascii.eqb c "}" = false ∧
          Ascii.eqb c "," = false.

(** What the round trip says of one value: its text, followed by anything,
    is read back as the value and leaves what followed, on any bound that is
    at least the length of the text. *)
Definition reads_back (v : value) : Prop :=
  well_formed v →
  ∀ fuel rest,
    (length (JSON.stringify_chars v) ≤ fuel)%nat →
    JSON.parse_value fuel (JSON.stringify_chars v ++ rest) = Some (v, rest).

(** Induction on a value, with the hypothesis for every element of an array
    and every property of an object. *)
Section value_induction.
Variable P : value → Prop.
Hypothesis Hnull : P VNull.
Hypothesis Hbool : ∀ b, P (VBool b).
Hypothesis Hstring : ∀ s, P (VString s).
Hypothesis Harray : ∀ l, Forall P l → P (VArray l).
Hypothesis Hobject : ∀ l, Forall (λ kx, P kx.2) l → P (VObject l).

Fixpoint value_ind (v : value) : P v :=
  match v with
  | VNull => Hnull
  | VBool b => Hbool b
  | VString s => Hstring s
  | VArray l =>
      Harray l
        ((fix all (l : list value) : Forall P l :=
            match l with
            | [] => @List.Forall_nil _ P
            | x :: l' => @List.Forall_cons _ P x l' (value_ind x) (all l')
            end) l)
  | VObject l =>
      Hobject l
        ((fix all (l : list (string * value)) : Forall (λ kx, P kx.2) l :=
            match l with
            | [] => @List.Forall_nil _ _
            | kx :: l' => @List.Forall_cons _ _ kx l' (value_ind kx.2) (all l')
            end) l)
  end.
End value_induction.

(** ** The rest of the view *)

(** [Task]: one row of the list, with the two pieces of state it holds. *)
Record TaskRow := mkTaskRow {
  isEditing : bool;
  draft : string;
}.

(** The state a row mounts with: [useState(false)], [useState(task.description)]. *)
Definition Task_mount (task : Task) : TaskRow :=
  {| isEditing := false; draft := description task |}.

(** [save]: the row and the store after the handler. *)
Definition Task_save (task : Task) (row : TaskRow) (state : RootState)
  : TaskRow * RootState :=
  if truthy (trim (draft row)) then
    ({| isEditing := false; draft := draft row |},
     dispatch state (editTask (id task) (draft row)))
  else (row, state).

(** The checkbox: [onChange={() => dispatch(toggleDone(task.id))}]. *)
Definition Task_onCheck (task : Task) (state : RootState) : RootState :=
  dispatch state (toggleDone (id task)).

(** The Edit button: [onClick={() => setIsEditing(true)}]. *)
Definition Task_onEdit (row : TaskRow) : TaskRow :=
  {| isEditing := true; draft := draft row |}.

(** [ListTask]: one of the two messages, or a [Task] element for each task
    of the filtered list, keyed by the task's identifier. *)
Inductive ListTaskOutput :=
| NoTasksYet
| NoTasksMatch
| TaskElements (rows : list (string * Task)).

Definition ListTask (state : RootState) : ListTaskOutput :=
  let filtered := ListTask_filtered (items (tasks state)) (filter (tasks state)) in
  if Nat.eqb (length (items (tasks state))) 0 then NoTasksYet
  else if Nat.eqb (length filtered) 0 then NoTasksMatch
  else TaskElements ((λ t, (id t, t)) <$> filtered).

(** [FilterBar]: the three buttons, the value each one sends and whether it
    is drawn as the active one. *)
Inductive FilterButton := AllButton | DoneButton | NotDoneButton.

Definition button_value (b : FilterButton) : string :=
  match b with
  | AllButton => "all"
  | DoneButton => "done"
  | NotDoneButton => "not"
  end.

Definition FilterBar_buttons : list FilterButton :=
  [AllButton; DoneButton; NotDoneButton].

Definition FilterBar_onClick (b : FilterButton) (state : RootState) : RootState :=
  dispatch state (setFilter (button_value b)).

Definition FilterBar_active (state : RootState) (b : FilterButton) : bool :=
  String.eqb (filter (tasks state)) (button_value b).

(** [AppInner]: the count of the footer, and the Clear button. *)
Definition AppInner_count (state : RootState) : nat :=
  length (items (tasks state)).

Definition AppInner_onClear (state : RootState) : RootState :=
  dispatch state clearAll.

(** What the user can do to the store through the view, and the store after
    the handler has run. [nanoid] is the identifier drawn if the form
    dispatches. *)
Inductive ViewEvent :=
| SubmitForm (nanoid text : string)
| CheckTask (task : Task)
| SaveTask (task : Task) (row : TaskRow)
| ClickFilter (b : FilterButton)
| ClickClear.

Definition view_step (state : RootState) (e : ViewEvent) : RootState :=
  match e with
  | SubmitForm nanoid text => (AddTask_onSubmit nanoid text state).2
  | CheckTask task => Task_onCheck task state
  | SaveTask task row => (Task_save task row state).2
  | ClickFilter b => FilterBar_onClick b state
  | ClickClear => AppInner_onClear state
  end.

(** The identifier drawn for a form submission is not in use. *)
Definition fresh_event (state : RootState) (e : ViewEvent) : Prop :=
  match e with
  | SubmitForm nanoid _ => nanoid ∉ ids (items (tasks state))
  | _ => True
  end.

(** A description as the view lets it into the store: not empty, and with
    no white space at either end. *)
Definition trimmed_text (d : string) : Prop := d ≠ "" ∧ trim d = d.

Definition data_model (state : TasksState) : Prop :=
  state_invariant state ∧ Forall (λ t, trimmed_text (description t)) (items state).

(** What [toggleDone] and [editTask] do to the array: the first task with
    the identifier, when there is one, is replaced by [f] of it. *)
Definition modify_first (i : string) (f : Task → Task) (l : list Task) : list Task :=
  match tasksSlice.find_by_id i l with
  | Some (k, t) => <[k := f t]> l
  | None => l
  end.

(** ** The store with its subscriber *)

(** [store.dispatch(action)] with the listener of [store.subscribe] run
    after it: the state of the store and the storage. *)
Definition store_dispatch (s : RootState * Storage) (action : Action)
  : RootState * Storage :=
  let state := dispatch s.1 action in
  (state, subscriber state s.2).

Definition session (s : RootState * Storage) (actions : list Action)
  : RootState * Storage :=
  foldl store_dispatch s actions.

(* ================================================================= *)
(** * Properties *)

(** ** Strings *)

Lemma trim_empty : trim "" = "".
Proof. reflexivity. Qed.

Lemma trim_blanks : trim "   " = "".
Proof. reflexivity. Qed.

Lemma truthy_nonempty s : truthy s = true ↔ s ≠ "".
Proof. destruct s; simpl; split; congruence. Qed.

Lemma length_zero_empty s : Nat.eqb (String.length s) 0 = true ↔ s = "".
Proof. destruct s; simpl; split; congruence. Qed.

(** ** Finding a task by its identifier *)

Section find.
Import tasksSlice.

Lemma find_by_id_None i l :
  find_by_id i l = None ↔ Forall (λ t, id t ≠ i) l.
Proof. unfold find_by_id. apply list_find_None. Qed.

(** The task found is the first one with the identifier. *)
Lemma find_by_id_first i l1 t l2 :
  id t = i → Forall (λ x, id x ≠ i) l1 →
  find_by_id i (l1 ++ t :: l2) = Some (length l1, t).
Proof.
  intros Ht Hl1. unfold find_by_id. apply list_find_Some. split_and!.
  - by rewrite list_lookup_middle.
  - done.
  - intros j y Hj Hlt. rewrite lookup_app_l in Hj by done.
    apply (Forall_lookup_1 _ _ _ _ Hl1 Hj).
Qed.

Lemma find_by_id_Some i l k t :
  find_by_id i l = Some (k, t) →
  ∃ l1 l2, l = l1 ++ t :: l2 ∧ length l1 = k ∧ id t = i ∧
           Forall (λ x, id x ≠ i) l1.
Proof.
  unfold find_by_id. intros (Hk & Hid & Hleast)%list_find_Some.
  exists (take k l), (drop (S k) l). split_and!.
  - by rewrite take_drop_middle.
  - apply length_take_le. apply lookup_lt_Some in Hk. lia.
  - done.
  - apply Forall_lookup. intros j y Hj.
    apply lookup_take_Some in Hj as [Hj Hlt]. eauto.
Qed.

Lemma insert_middle (l1 l2 : list Task) t t' :
  <[length l1 := t']> (l1 ++ t :: l2) = l1 ++ t' :: l2.
Proof.
  rewrite insert_app_r_alt by lia. by rewrite Nat.sub_diag.
Qed.

(** Replacing a task by one with the same identifier keeps the
    identifiers of the array. *)
Lemma ids_insert_same (l : list Task) k t t' :
  l !! k = Some t → id t' = id t → ids (<[k := t']> l) = ids l.
Proof.
  intros Hk Hid. unfold ids. rewrite list_fmap_insert, Hid.
  apply list_insert_id. by rewrite list_lookup_fmap, Hk.
Qed.

End find.

(** ** Adding a task *)

(** The reducer of [addTask] prepends its payload, whatever it is. *)
Lemma dispatch_addTask st nid s :
  dispatch st (addTask nid s) =
  {| tasks := {| items := {| id := nid; description := trim s; isDone := false |}
                          :: items (tasks st);
                 filter := filter (tasks st) |} |}.
Proof. reflexivity. Qed.

(** C1, as stated, fails: dispatching [addTask] with a blank description
    is not a no-op. On the empty store it leaves one task, whose description
    is the empty string. *)
Lemma addTask_blank_not_noop :
  let st := {| tasks := default_state |} in
  trim "   " = "" ∧
  dispatch st (addTask "V1StGXR8_Z5jdHi6B-myT" "   ") =
    {| tasks := {| items := [ {| id := "V1StGXR8_Z5jdHi6B-myT";
                                 description := ""; isDone := false |} ];
                   filter := "all" |} |} ∧
  dispatch st (addTask "V1StGXR8_Z5jdHi6B-myT" "   ") ≠ st.
Proof. split_and!; [reflexivity | reflexivity | discriminate]. Qed.

(** C1, amended: the blank description is turned away by the form, not by
    the store. When the trimmed text is empty, [onSubmit] of the [AddTask]
    component returns before it dispatches, so the state of the store (items
    and filter) and the text are what they were; the [addTask] action itself
    makes no such test, and dispatching it prepends a task whose description
    is the empty string. *)
Theorem AddTask_onSubmit_blank nid text st :
  trim text = "" →
  AddTask_onSubmit nid text st = (text, st) ∧
  dispatch st (addTask nid text) =
    {| tasks := {| items := {| id := nid; description := ""; isDone := false |}
                            :: items (tasks st);
                   filter := filter (tasks st) |} |}.
Proof.
  intros Hblank. split.
  - unfold AddTask_onSubmit. by rewrite Hblank.
  - by rewrite dispatch_addTask, Hblank.
Qed.

Lemma AddTask_onSubmit_blank_witness :
  let st := {| tasks := {| items := [ {| id := "a"; description := "Buy milk";
                                         isDone := true |} ];
                           filter := "done" |} |} in
  AddTask_onSubmit "V1StGXR8_Z5jdHi6B-myT" "   " st = ("   ", st) ∧
  dispatch st (addTask "V1StGXR8_Z5jdHi6B-myT" "   ") =
    {| tasks := {| items := {| id := "V1StGXR8_Z5jdHi6B-myT"; description := "";
                               isDone := false |} :: items (tasks st);
                   filter := filter (tasks st) |} |}.
Proof.
  intros st. apply (AddTask_onSubmit_blank "V1StGXR8_Z5jdHi6B-myT" "   " st).
  reflexivity.
Defined.

(** C2, as stated, fails: nothing compares the identifier [nanoid()]
    returns with the identifiers of [items]. With a task in the store and
    [nanoid()] returning the identifier of that task, [addTask] of a
    description that is not blank puts a second task with the same
    identifier in front of the first. *)
Lemma addTask_id_collision :
  let old := {| id := "V1StGXR8_Z5jdHi6B-myT"; description := "Buy milk";
                isDone := false |} in
  let st := {| tasks := {| items := [old]; filter := "all" |} |} in
  let st' := dispatch st (addTask "V1StGXR8_Z5jdHi6B-myT" "Call Bob") in
  trim "Call Bob" ≠ "" ∧
  items (tasks st') =
    [ {| id := "V1StGXR8_Z5jdHi6B-myT"; description := "Call Bob";
         isDone := false |}; old ] ∧
  ¬ (∀ t', t' ∈ items (tasks st) → id t' ≠ "V1StGXR8_Z5jdHi6B-myT").
Proof.
  intros old st st'. split_and!.
  - vm_compute. discriminate.
  - reflexivity.
  - intros H. apply (H old); [apply list_elem_of_here | reflexivity].
Qed.

(** C2, amended: for a description [s] whose trimmed form is not empty,
    [addTask(s)] puts exactly one new task in front of [items]: the length
    grows by one, the new task has description [s.trim()], [isDone] false
    and for identifier the value [nid] that [nanoid()] returned; the tasks
    already there follow it in their order, and the filter is unchanged.
    The new identifier differs from the identifier of every task already
    there exactly when [nid] is not among the identifiers of [items]: the
    code draws it and never compares it with them. *)
Theorem addTask_prepends st nid s :
  trim s ≠ "" →
  let st' := dispatch st (addTask nid s) in
  ∃ t,
    items (tasks st') = t :: items (tasks st) ∧
    length (items (tasks st')) = S (length (items (tasks st))) ∧
    description t = trim s ∧ description t ≠ "" ∧
    isDone t = false ∧
    id t = nid ∧
    ((∀ t', t' ∈ items (tasks st) → id t' ≠ id t) ↔
     nid ∉ ids (items (tasks st))) ∧
    filter (tasks st') = filter (tasks st).
Proof.
  intros Hs st'. eexists. split; [reflexivity|]. simpl.
  split_and!; try done.
  split.
  - intros Hall (t' & Heq & Ht')%list_elem_of_fmap. by apply (Hall t' Ht').
  - intros Hfresh t' Ht' Heq. apply Hfresh. rewrite <- Heq.
    unfold ids. by apply list_elem_of_fmap_2.
Qed.

Lemma addTask_prepends_witness :
  let st := {| tasks := {| items := [ {| id := "a"; description := "Buy milk";
                                         isDone := true |} ];
                           filter := "done" |} |} in
  let st' := dispatch st (addTask "V1StGXR8_Z5jdHi6B-myT" "  Call Bob ") in
  ∃ t,
    items (tasks st') = t :: items (tasks st) ∧
    length (items (tasks st')) = S (length (items (tasks st))) ∧
    description t = trim "  Call Bob " ∧ description t ≠ "" ∧
    isDone t = false ∧
    id t = "V1StGXR8_Z5jdHi6B-myT" ∧
    ((∀ t', t' ∈ items (tasks st) → id t' ≠ id t) ↔
     "V1StGXR8_Z5jdHi6B-myT" ∉ ids (items (tasks st))) ∧
    filter (tasks st') = filter (tasks st).
Proof.
  intros st.
  apply (addTask_prepends st "V1StGXR8_Z5jdHi6B-myT" "  Call Bob ").
  vm_compute. discriminate.
Defined.

(** ** The invariant *)

Lemma default_state_invariant : state_invariant default_state.
Proof. split; [constructor | by left]. Qed.

Lemma toggleDone_ids state i :
  ids (items (tasksSlice.toggleDone state i)) = ids (items state).
Proof.
  unfold tasksSlice.toggleDone.
  destruct (tasksSlice.find_by_id i (items state)) as [[k t]|] eqn:Hfind; [|done].
  apply list_find_Some in Hfind as (Hk & _ & _). simpl.
  by apply (ids_insert_same _ _ t).
Qed.

Lemma editTask_ids state p :
  ids (items (tasksSlice.editTask state p)) = ids (items state).
Proof.
  destruct p as [i d]. unfold tasksSlice.editTask.
  destruct (tasksSlice.find_by_id i (items state)) as [[k t]|] eqn:Hfind; [|done].
  destruct (truthy (trim d)); [|done].
  apply list_find_Some in Hfind as (Hk & _ & _). simpl.
  by apply (ids_insert_same _ _ t).
Qed.

(** C3, as stated, fails: [setFilter] stores the value it is given, so from
    the default state, which satisfies the invariant, [setFilter] with a
    string that is none of the three leads to a state that does not. *)
Lemma setFilter_breaks_invariant :
  state_invariant default_state ∧
  ¬ state_invariant (tasks_reducer default_state (setFilter "bogus")).
Proof.
  split; [apply default_state_invariant|].
  intros [_ [H|[H|H]]]; discriminate H.
Qed.

(** C3, amended: the default state satisfies the invariant (no two tasks
    with the same identifier, filter one of "all", "done", "not"), and every
    operation of the store preserves it when [setFilter] is given one of the
    three values and the identifier [nanoid()] drew for [addTask] is not in
    use; [toggleDone], [editTask] and [clearAll] preserve it
    unconditionally. *)
Theorem reducer_preserves_invariant state action :
  state_invariant state →
  expected_action state action →
  state_invariant default_state ∧
  state_invariant (tasks_reducer state action).
Proof.
  intros [Hnodup Hfilter] Hexp. split; [apply default_state_invariant|].
  destruct action as [p|i|p|v|]; simpl in *.
  - split; [|done].
    change (NoDup (id p :: ids (items state))). by apply NoDup_cons.
  - split.
    + by rewrite toggleDone_ids.
    + unfold tasksSlice.toggleDone.
      by destruct (tasksSlice.find_by_id i (items state)) as [[k t]|].
  - split.
    + by rewrite editTask_ids.
    + destruct p as [i d]. unfold tasksSlice.editTask.
      destruct (tasksSlice.find_by_id i (items state)) as [[k t]|]; [|done].
      by destruct (truthy (trim d)).
  - done.
  - split; [constructor | done].
Qed.

Lemma reducer_preserves_invariant_witness :
  let state := {| items := [ {| id := "a"; description := "Buy milk";
                                isDone := true |} ];
                  filter := "done" |} in
  state_invariant default_state ∧
  state_invariant (tasks_reducer state (addTask "b" "Call Bob")).
Proof.
  intros state.
  apply (reducer_preserves_invariant state (addTask "b" "Call Bob")).
  - split.
    + apply NoDup_singleton.
    + right; left; reflexivity.
  - simpl. intros H. apply list_elem_of_In in H. simpl in H.
    destruct H as [H|[]]. discriminate.
Defined.

(** ** Toggling *)

Lemma toggleDone_found state i l1 t l2 :
  items state = l1 ++ t :: l2 → id t = i → Forall (λ x, id x ≠ i) l1 →
  tasksSlice.toggleDone state i =
    {| items := l1 ++ flipped t :: l2; filter := filter state |}.
Proof.
  intros Hitems Ht Hl1. unfold tasksSlice.toggleDone.
  rewrite Hitems, (find_by_id_first i l1 t l2 Ht Hl1).
  by rewrite insert_middle.
Qed.

Lemma toggleDone_missing state i :
  Forall (λ x, id x ≠ i) (items state) → tasksSlice.toggleDone state i = state.
Proof.
  intros H%find_by_id_None. unfold tasksSlice.toggleDone. by rewrite H.
Qed.

Lemma flipped_flipped t : flipped (flipped t) = t.
Proof. destruct t as [i d b]. unfold flipped. simpl. by rewrite negb_involutive. Qed.

Lemma toggleDone_twice state i :
  tasksSlice.toggleDone (tasksSlice.toggleDone state i) i = state.
Proof.
  destruct (tasksSlice.find_by_id i (items state)) as [[k t]|] eqn:Hfind.
  - apply find_by_id_Some in Hfind as (l1 & l2 & Hitems & _ & Ht & Hl1).
    rewrite (toggleDone_found state i l1 t l2 Hitems Ht Hl1).
    rewrite (toggleDone_found {| items := l1 ++ flipped t :: l2;
                                 filter := filter state |}
               i l1 (flipped t) l2 eq_refl Ht Hl1).
    rewrite flipped_flipped. simpl. rewrite <- Hitems. by destruct state.
  - apply find_by_id_None in Hfind.
    by rewrite !(toggleDone_missing state i Hfind).
Qed.

(** C4: [toggleDone(id)] negates [isDone] of the task with that identifier
    (the first one in the array, should several bear it) and changes nothing
    else: its identifier and description, the tasks before and after it and
    the filter stay; when no task has the identifier the state is unchanged;
    and applying [toggleDone(id)] twice gives back the state one started
    from. *)
Theorem toggleDone_flips_and_is_involutive st i :
  (∀ l1 t l2,
     items (tasks st) = l1 ++ t :: l2 → id t = i → Forall (λ x, id x ≠ i) l1 →
     dispatch st (toggleDone i) =
       {| tasks := {| items := l1 ++ {| id := id t; description := description t;
                                        isDone := negb (isDone t) |} :: l2;
                      filter := filter (tasks st) |} |}) ∧
  (Forall (λ x, id x ≠ i) (items (tasks st)) → dispatch st (toggleDone i) = st) ∧
  dispatch (dispatch st (toggleDone i)) (toggleDone i) = st.
Proof.
  unfold dispatch. simpl. split_and!.
  - intros l1 t l2 Hitems Ht Hl1.
    by rewrite (toggleDone_found _ i l1 t l2 Hitems Ht Hl1).
  - intros H. rewrite (toggleDone_missing _ i H). by destruct st.
  - rewrite toggleDone_twice. by destruct st.
Qed.

Lemma toggleDone_flips_and_is_involutive_witness :
  let a := {| id := "a"; description := "Call Bob"; isDone := false |} in
  let b := {| id := "b"; description := "Buy milk"; isDone := false |} in
  let st := {| tasks := {| items := [a; b]; filter := "all" |} |} in
  dispatch st (toggleDone "b") =
    {| tasks := {| items := [a; {| id := "b"; description := "Buy milk";
                                   isDone := true |}];
                   filter := "all" |} |} ∧
  dispatch st (toggleDone "zz") = st ∧
  dispatch (dispatch st (toggleDone "b")) (toggleDone "b") = st.
Proof.
  intros a b st.
  destruct (toggleDone_flips_and_is_involutive st "b") as (Hfound & _ & Htwice).
  destruct (toggleDone_flips_and_is_involutive st "zz") as (_ & Hmissing & _).
  split_and!.
  - apply (Hfound [a] b []); [reflexivity | reflexivity |].
    repeat constructor. discriminate.
  - apply Hmissing. repeat constructor; discriminate.
  - exact Htwice.
Defined.

(** ** Editing *)

Lemma trim_new : trim "new" = "new".
Proof. reflexivity. Qed.

Lemma editTask_found state i d l1 t l2 :
  items state = l1 ++ t :: l2 → id t = i → Forall (λ x, id x ≠ i) l1 →
  trim d ≠ "" →
  tasksSlice.editTask state (i, d) =
    {| items := l1 ++ described (trim d) t :: l2; filter := filter state |}.
Proof.
  intros Hitems Ht Hl1 Hd%truthy_nonempty. unfold tasksSlice.editTask.
  rewrite Hitems, (find_by_id_first i l1 t l2 Ht Hl1), Hd.
  by rewrite insert_middle.
Qed.

Lemma editTask_blank state i d :
  trim d = "" → tasksSlice.editTask state (i, d) = state.
Proof.
  intros Hd. unfold tasksSlice.editTask. rewrite Hd. simpl.
  by destruct (tasksSlice.find_by_id i (items state)) as [[k t]|].
Qed.

Lemma editTask_missing state i d :
  Forall (λ x, id x ≠ i) (items state) → tasksSlice.editTask state (i, d) = state.
Proof.
  intros H%find_by_id_None. unfold tasksSlice.editTask. by rewrite H.
Qed.

(** C5: [editTask(id, d)] gives the task with that identifier (the first one
    in the array, should several bear it) the description [d.trim()] when
    that is not empty, and then changes nothing else: the task's identifier
    and [isDone], the tasks before and after it and the filter stay. It
    leaves the state unchanged when [d.trim()] is empty and when no task has
    the identifier. So [editTask(id, "")] leaves every description as it is
    and [editTask(id, "new")] sets the description to ["new"]. *)
Theorem editTask_replaces_description st i :
  (∀ d l1 t l2,
     items (tasks st) = l1 ++ t :: l2 → id t = i → Forall (λ x, id x ≠ i) l1 →
     trim d ≠ "" →
     dispatch st (editTask i d) =
       {| tasks := {| items := l1 ++ {| id := id t; description := trim d;
                                        isDone := isDone t |} :: l2;
                      filter := filter (tasks st) |} |}) ∧
  (∀ d, trim d = "" → dispatch st (editTask i d) = st) ∧
  (∀ d, Forall (λ x, id x ≠ i) (items (tasks st)) →
        dispatch st (editTask i d) = st) ∧
  dispatch st (editTask i "") = st ∧
  (∀ l1 t l2,
     items (tasks st) = l1 ++ t :: l2 → id t = i → Forall (λ x, id x ≠ i) l1 →
     dispatch st (editTask i "new") =
       {| tasks := {| items := l1 ++ {| id := id t; description := "new";
                                        isDone := isDone t |} :: l2;
                      filter := filter (tasks st) |} |}).
Proof.
  unfold dispatch, editTask. cbn [tasks_reducer tasks]. split_and!.
  - intros d l1 t l2 Hitems Ht Hl1 Hd.
    by rewrite (editTask_found _ i d l1 t l2 Hitems Ht Hl1 Hd).
  - intros d Hd. rewrite (editTask_blank _ i d Hd). by destruct st.
  - intros d H. rewrite (editTask_missing _ i d H). by destruct st.
  - rewrite (editTask_blank _ i "" trim_empty). by destruct st.
  - intros l1 t l2 Hitems Ht Hl1.
    rewrite (editTask_found _ i "new" l1 t l2 Hitems Ht Hl1); [done|].
    rewrite trim_new. discriminate.
Qed.

Lemma editTask_replaces_description_witness :
  let a := {| id := "a"; description := "Call Bob"; isDone := false |} in
  let b := {| id := "b"; description := "Buy milk"; isDone := true |} in
  let st := {| tasks := {| items := [a; b]; filter := "done" |} |} in
  dispatch st (editTask "b" "  Buy oat milk ") =
    {| tasks := {| items := [a; {| id := "b"; description := "Buy oat milk";
                                   isDone := true |}];
                   filter := "done" |} |} ∧
  dispatch st (editTask "b" "   ") = st ∧
  dispatch st (editTask "zz" "x") = st ∧
  dispatch st (editTask "b" "new") =
    {| tasks := {| items := [a; {| id := "b"; description := "new";
                                   isDone := true |}];
                   filter := "done" |} |}.
Proof.
  intros a b st.
  destruct (editTask_replaces_description st "b")
    as (Hfound & Hblank & _ & _ & Hnew).
  destruct (editTask_replaces_description st "zz") as (_ & _ & Hmissing & _).
  split_and!.
  - apply (Hfound "  Buy oat milk " [a] b []); [reflexivity | reflexivity | |].
    + repeat constructor. discriminate.
    + vm_compute. discriminate.
  - apply Hblank. reflexivity.
  - apply Hmissing. repeat constructor; discriminate.
  - apply (Hnew [a] b []); [reflexivity | reflexivity |].
    repeat constructor. discriminate.
Defined.

(** ** Clearing *)

(** C6: [clearAll()] gives a state whose [items] is the empty array and
    whose filter is the filter of the state it was applied to. *)
Theorem clearAll_empties_items st :
  items (tasks (dispatch st clearAll)) = [] ∧
  filter (tasks (dispatch st clearAll)) = filter (tasks st) ∧
  dispatch st clearAll = {| tasks := {| items := []; filter := filter (tasks st) |} |}.
Proof. by split_and!. Qed.

(** ** The derived view *)

Lemma subsequence_where_filter {A} (p : A → bool) l :
  subsequence_where p l (List.filter p l).
Proof.
  induction l as [|x l IH]; simpl.
  - constructor.
  - destruct (p x) eqn:Hp; by constructor.
Qed.

Lemma subsequence_where_unique {A} (p : A → bool) l l' :
  subsequence_where p l l' → l' = List.filter p l.
Proof.
  induction 1 as [|x l l' Hp _ IH|x l l' Hp _ IH]; simpl.
  - done.
  - by rewrite Hp, IH.
  - by rewrite Hp.
Qed.

(** C7: the list [ListTask] shows is a function of [items] and [filter]
    alone: [items] itself when the filter is "all"; when it is "done", the
    subsequence of the tasks with [isDone] true, in the order of [items];
    when it is "not", the subsequence of the tasks with [isDone] false. *)
Theorem ListTask_filtered_view (l : list Task) :
  ListTask_filtered l "all" = l ∧
  (∀ l', subsequence_where (λ t, isDone t) l l' ↔ l' = ListTask_filtered l "done") ∧
  (∀ l', subsequence_where (λ t, negb (isDone t)) l l' ↔
         l' = ListTask_filtered l "not").
Proof.
  split_and!.
  - reflexivity.
  - intros l'. split.
    + apply subsequence_where_unique.
    + intros ->. apply subsequence_where_filter.
  - intros l'. split.
    + apply subsequence_where_unique.
    + intros ->. apply subsequence_where_filter.
Qed.

(** ** JSON: what [stringify] writes, [parse] reads back *)

Section json_strings.
Import JSON.

(** Reading one quoted code unit gives the code unit. *)
Lemma parse_quote_char c tl :
  parse_string_chars (quote_char c ++ tl) =
  match parse_string_chars tl with
  | Some (str, rest) => Some (c :: str, rest)
  | None => None
  end.
Proof.
  destruct c as [[] [] [] [] [] [] [] []]; reflexivity.
Qed.

Lemma parse_quote_chars l rest :
  parse_string_chars (quote_chars l ++ dquote :: rest) = Some (l, rest).
Proof.
  induction l as [|c l IH].
  - reflexivity.
  - unfold quote_chars in *. simpl flat_map. rewrite <- app_assoc.
    by rewrite parse_quote_char, IH.
Qed.

Lemma quote_app s rest :
  quote s ++ rest = dquote :: quote_chars (chars s) ++ dquote :: rest.
Proof. unfold quote. simpl. by rewrite <- app_assoc. Qed.

Lemma parse_string_quote s rest :
  parse_string (quote s ++ rest) = Some (s, rest).
Proof.
  rewrite quote_app. unfold parse_string.
  change (skip_ws (dquote :: ?r)) with (dquote :: r).
  change (Ascii.eqb dquote dquote) with true. cbv iota.
  rewrite parse_quote_chars. unfold chars.
  by rewrite string_of_list_ascii_of_string.
Qed.

Lemma parse_key_quote k rest :
  parse_key (quote k ++ ":"%char :: rest) = Some (k, rest).
Proof. unfold parse_key. by rewrite parse_string_quote. Qed.

End json_strings.

Section json_values.
Import JSON.

(** *** The first character of a value's text *)

Lemma stringify_starts v : starts_value (stringify_chars v).
Proof.
  destruct v as [|[]|s|l|l]; eexists _, _; (split; [reflexivity|done]).
Qed.

Lemma quote_starts k : starts_value (quote k).
Proof. eexists _, _. split; [reflexivity|done]. Qed.

Lemma skip_ws_starts s r : starts_value s → skip_ws (s ++ r) = s ++ r.
Proof. intros (c & tl & -> & Hws & _). simpl. by rewrite Hws. Qed.

Lemma first_is_bracket s r :
  starts_value s → first_is "]" (s ++ r) = false.
Proof. by intros (c & tl & -> & _ & H & _). Qed.

Lemma first_is_brace s r :
  starts_value s → first_is "}" (s ++ r) = false.
Proof. by intros (c & tl & -> & _ & _ & H & _). Qed.

(** *** The text of arrays and objects *)

Lemma stringify_array_cons x l :
  stringify_chars (VArray (x :: l)) =
  "["%char :: stringify_chars x ++ more_elements l ++ ["]"%char].
Proof. simpl. by rewrite <- !app_assoc. Qed.

Lemma stringify_object_cons k x l :
  stringify_chars (VObject ((k, x) :: l)) =
  "{"%char :: quote k ++ ":"%char :: stringify_chars x ++ more_members l
           ++ ["}"%char].
Proof.
  simpl. rewrite <- !app_assoc. simpl. by rewrite <- !app_assoc.
Qed.

Lemma well_formed_array l :
  well_formed (VArray l) ↔ Forall well_formed l.
Proof.
  induction l as [|x l IH].
  - split; [constructor | done].
  - rewrite Forall_cons, <- IH. reflexivity.
Qed.

Lemma well_formed_object l :
  well_formed (VObject l) ↔
  NoDup (l.*1) ∧ Forall (λ kx, well_formed kx.2) l.
Proof.
  change (well_formed (VObject l)) with
    (NoDup (l.*1) ∧
     (fix all (l : list (string * value)) : Prop :=
        match l with
        | [] => True
        | kx :: l' => well_formed kx.2 ∧ all l'
        end) l).
  apply and_iff_compat_l.
  induction l as [|kx l IH].
  - split; [constructor | done].
  - rewrite Forall_cons, <- IH. reflexivity.
Qed.

(** *** Objects with distinct names *)

Lemma define_property_fresh k v l :
  k ∉ l.*1 → define_property k v l = l ++ [(k, v)].
Proof.
  induction l as [|[k' v'] l IH]; intros Hk; simpl.
  - done.
  - rewrite fmap_cons, not_elem_of_cons in Hk. destruct Hk as [Hne Hk].
    simpl in Hne. destruct (String.eqb_spec k' k) as [->|_]; [done|].
    by rewrite IH.
Qed.

Lemma foldl_define_property acc l :
  NoDup ((acc ++ l).*1) →
  foldl (λ acc kv, define_property kv.1 kv.2 acc) acc l = acc ++ l.
Proof.
  revert acc. induction l as [|[k v] l IH]; intros acc Hnd; simpl.
  - by rewrite app_nil_r.
  - rewrite define_property_fresh.
    + rewrite IH; rewrite <- app_assoc; done.
    + rewrite fmap_app in Hnd. apply NoDup_app in Hnd as (_ & Hdisj & _).
      intros Hin. apply (Hdisj k Hin). rewrite fmap_cons. left.
Qed.

Lemma object_of_members_distinct l :
  NoDup (l.*1) → object_of_members l = l.
Proof. intros H. unfold object_of_members. by rewrite foldl_define_property. Qed.

End json_values.

Section json_round_trip.
Import JSON.

Lemma parse_more_elements l :
  Forall reads_back l → Forall well_formed l →
  ∀ fuel rest,
    (length (more_elements l) < fuel)%nat →
    parse_elements fuel (more_elements l ++ "]"%char :: rest) = Some (l, rest).
Proof.
  induction l as [|y l IH]; intros Hread Hwf fuel rest Hfuel.
  - destruct fuel as [|fuel]; [simpl in Hfuel; lia|]. reflexivity.
  - apply Forall_cons in Hread as [Hy Hread].
    apply Forall_cons in Hwf as [Hwfy Hwf].
    destruct fuel as [|fuel]; [simpl in Hfuel; lia|].
    simpl in Hfuel. rewrite length_app in Hfuel.
    change (more_elements (y :: l) ++ "]"%char :: rest)
      with (","%char :: (stringify_chars y ++ more_elements l) ++ "]"%char :: rest).
    rewrite <- app_assoc.
    cbn [parse_elements].
    change (skip_ws (","%char :: ?r)) with (","%char :: r).
    change (first_is "]" (","%char :: ?r)) with false.
    change (first_is "," (","%char :: ?r)) with true.
    cbv iota. cbn [tail].
    rewrite (Hy Hwfy) by lia.
    by rewrite (IH Hread Hwf) by lia.
Qed.

Lemma parse_more_members l :
  Forall (λ kx, reads_back kx.2) l → Forall (λ kx, well_formed kx.2) l →
  ∀ fuel rest,
    (length (more_members l) < fuel)%nat →
    parse_members fuel (more_members l ++ "}"%char :: rest) = Some (l, rest).
Proof.
  induction l as [|[k y] l IH]; intros Hread Hwf fuel rest Hfuel.
  - destruct fuel as [|fuel]; [simpl in Hfuel; lia|]. reflexivity.
  - apply Forall_cons in Hread as [Hy Hread].
    apply Forall_cons in Hwf as [Hwfy Hwf]. cbn [snd] in Hy, Hwfy.
    destruct fuel as [|fuel]; [simpl in Hfuel; lia|].
    simpl in Hfuel. rewrite !length_app in Hfuel. simpl in Hfuel.
    rewrite length_app in Hfuel.
    change (more_members ((k, y) :: l) ++ "}"%char :: rest)
      with (","%char :: (quote k ++ ":"%char :: stringify_chars y ++ more_members l)
                     ++ "}"%char :: rest).
    rewrite <- app_assoc. simpl app at 2. rewrite <- app_assoc.
    cbn [parse_members].
    change (skip_ws (","%char :: ?r)) with (","%char :: r).
    change (first_is "}" (","%char :: ?r)) with false.
    change (first_is "," (","%char :: ?r)) with true.
    cbv iota. cbn [tail].
    rewrite parse_key_quote.
    rewrite (Hy Hwfy) by lia.
    by rewrite (IH Hread Hwf) by lia.
Qed.

Lemma parse_stringify_chars v : reads_back v.
Proof.
  induction v as [|b|s|l IH|l IH] using value_ind;
    intros Hwf fuel rest Hfuel;
    (destruct fuel as [|fuel]; [destruct l || destruct b || idtac;
                                simpl in Hfuel; lia|]).
  - reflexivity.
  - by destruct b.
  - cbn [stringify_chars parse_value].
    rewrite (skip_ws_starts _ _ (quote_starts s)).
    change (first_is dquote (quote s ++ rest)) with true. cbv iota.
    by rewrite parse_string_quote.
  - apply well_formed_array in Hwf.
    destruct l as [|x l]; [reflexivity|].
    apply Forall_cons in IH as [Hx IH].
    apply Forall_cons in Hwf as [Hwfx Hwf].
    rewrite stringify_array_cons in *. simpl in Hfuel.
    rewrite !length_app in Hfuel. simpl in Hfuel.
    rewrite <- app_comm_cons, <- !app_assoc.
    cbn [parse_value].
    change (skip_ws ("["%char :: ?r)) with ("["%char :: r).
    change (first_is dquote ("["%char :: ?r)) with false.
    change (first_is "[" ("["%char :: ?r)) with true.
    cbv iota. cbn [tail].
    rewrite (skip_ws_starts _ _ (stringify_starts x)).
    rewrite (first_is_bracket _ _ (stringify_starts x)).
    rewrite (Hx Hwfx) by lia.
    simpl app.
    by rewrite (parse_more_elements l IH Hwf) by lia.
  - apply well_formed_object in Hwf as [Hnd Hwf].
    destruct l as [|[k x] l]; [reflexivity|].
    apply Forall_cons in IH as [Hx IH].
    apply Forall_cons in Hwf as [Hwfx Hwf]. cbn [snd] in Hx, Hwfx.
    rewrite stringify_object_cons in *. simpl in Hfuel.
    rewrite !length_app in Hfuel. simpl in Hfuel.
    rewrite !length_app in Hfuel. simpl in Hfuel.
    rewrite <- app_comm_cons, <- !app_assoc.
    cbn [parse_value].
    change (skip_ws ("{"%char :: ?r)) with ("{"%char :: r).
    change (first_is dquote ("{"%char :: ?r)) with false.
    change (first_is "[" ("{"%char :: ?r)) with false.
    change (first_is "{" ("{"%char :: ?r)) with true.
    cbv iota. cbn [tail].
    rewrite (skip_ws_starts _ _ (quote_starts k)).
    rewrite (first_is_brace _ _ (quote_starts k)).
    rewrite <- app_comm_cons, <- !app_assoc.
    rewrite parse_key_quote.
    rewrite (Hx Hwfx) by lia.
    simpl app.
    rewrite (parse_more_members l IH Hwf) by lia.
    by rewrite object_of_members_distinct.
Qed.

End json_round_trip.

Lemma length_string_of_chars (l : list ascii) :
  String.length (string_of_list_ascii l) = length l.
Proof. induction l as [|c l IH]; simpl; congruence. Qed.

(** [JSON.parse(JSON.stringify(v))] is [v], for every value [v] no object of
    which has two properties of the same name. *)
Lemma parse_stringify v :
  well_formed v → JSON.parse (JSON.stringify v) = Some v.
Proof.
  intros Hwf. unfold JSON.parse, JSON.stringify, JSON.chars.
  rewrite list_ascii_of_string_of_list_ascii, length_string_of_chars.
  rewrite <- (app_nil_r (JSON.stringify_chars v)) at 2.
  rewrite (parse_stringify_chars v Hwf) by lia. reflexivity.
Qed.

(** The text of a value is never the empty string. *)
Lemma stringify_truthy v : truthy (JSON.stringify v) = true.
Proof.
  unfold JSON.stringify.
  by destruct (stringify_starts v) as (c & tl & -> & _).
Qed.

(** ** JSON: the bound of the descent does not matter *)

Section json_bound.
Import JSON.

Lemma skip_ws_length s : (length (skip_ws s) ≤ length s)%nat.
Proof.
  induction s as [|c s IH]; simpl; [lia|].
  destruct (is_ws c); simpl; lia.
Qed.

Lemma first_is_tail c s :
  first_is c s = true → (length (tail s) < length s)%nat.
Proof. destruct s; simpl; [done | lia]. Qed.

Lemma strip_prefix_length p s r :
  strip_prefix p s = Some r → length s = (length p + length r)%nat.
Proof.
  revert s. induction p as [|c p IH]; intros s H; simpl in *.
  - by injection H as <-.
  - destruct s as [|c' s]; [done|].
    destruct (Ascii.eqb c c'); [|done]. simpl. by rewrite (IH s H).
Qed.

Lemma parse_literal_consumes s v r :
  parse_literal s = Some (v, r) → (length r < length s)%nat.
Proof.
  unfold parse_literal. intros H.
  destruct (strip_prefix (chars "null") s) as [r'|] eqn:Hnull.
  { apply strip_prefix_length in Hnull. injection H as <- <-.
    simpl in Hnull. lia. }
  destruct (strip_prefix (chars "true") s) as [r'|] eqn:Htrue.
  { apply strip_prefix_length in Htrue. injection H as <- <-.
    simpl in Htrue. lia. }
  destruct (strip_prefix (chars "false") s) as [r'|] eqn:Hfalse; [|done].
  apply strip_prefix_length in Hfalse. injection H as <- <-.
  simpl in Hfalse. lia.
Qed.

Lemma parse_string_chars_consumes s str r :
  parse_string_chars s = Some (str, r) → (length r < length s)%nat.
Proof.
  remember (length s) as n eqn:Hn. revert s str r Hn.
  induction n as [n IH] using lt_wf_ind. intros s str r -> H.
  destruct s as [|c s]; [done|]. simpl in H.
  destruct (Ascii.eqb c dquote); [injection H as <- <-; simpl; lia|].
  destruct (Ascii.eqb c backslash).
  - destruct s as [|e s]; [done|].
    destruct (Ascii.eqb e "u").
    + destruct s as [|h1 [|h2 [|h3 [|h4 s]]]]; try done.
      destruct (hex4 h1 h2 h3 h4) as [m|]; [|done].
      destruct (Nat.ltb m 256); [|done].
      destruct (parse_string_chars s) as [[str' r']|] eqn:Hs; [|done].
      injection H as <- <-.
      apply (IH (length s)) in Hs; simpl; [lia | lia | done].
    + destruct (unescape e); [|done].
      destruct (parse_string_chars s) as [[str' r']|] eqn:Hs; [|done].
      injection H as <- <-.
      apply (IH (length s)) in Hs; simpl; [lia | lia | done].
  - destruct (Nat.ltb (nat_of_ascii c) 32); [done|].
    destruct (parse_string_chars s) as [[str' r']|] eqn:Hs; [|done].
    injection H as <- <-.
    apply (IH (length s)) in Hs; simpl; [lia | lia | done].
Qed.

Lemma parse_string_consumes s k r :
  parse_string s = Some (k, r) → (length r < length s)%nat.
Proof.
  unfold parse_string. pose proof (skip_ws_length s) as Hws.
  destruct (skip_ws s) as [|c s']; [done|].
  destruct (Ascii.eqb c dquote); [|done].
  destruct (parse_string_chars s') as [[str r']|] eqn:Hs; [|done].
  intros [= <- <-]. apply parse_string_chars_consumes in Hs. simpl in Hws. lia.
Qed.

Lemma parse_key_consumes s k r :
  parse_key s = Some (k, r) → (length r < length s)%nat.
Proof.
  unfold parse_key.
  destruct (parse_string s) as [[k' r']|] eqn:Hs; [|done].
  apply parse_string_consumes in Hs.
  pose proof (skip_ws_length r') as Hws.
  destruct (first_is ":" (skip_ws r')) eqn:Hc; [|done].
  apply first_is_tail in Hc. intros [= <- <-]. lia.
Qed.

(** Whatever the descent reads, it reads at least one character. *)
Lemma parse_consumes fuel :
  ∀ s,
    (∀ v r, parse_value fuel s = Some (v, r) → (length r < length s)%nat) ∧
    (∀ vs r, parse_elements fuel s = Some (vs, r) → (length r < length s)%nat) ∧
    (∀ ms r, parse_members fuel s = Some (ms, r) → (length r < length s)%nat).
Proof.
  induction fuel as [|fuel IH]; intros s; [by split_and!|].
  pose proof (skip_ws_length s) as Hws.
  split_and!.
  - intros v r. cbn [parse_value].
    destruct (first_is dquote (skip_ws s)).
    { destruct (parse_string (skip_ws s)) as [[k r']|] eqn:Hk; [|done].
      apply parse_string_consumes in Hk. intros [= <- <-]. lia. }
    destruct (first_is "[" (skip_ws s)) eqn:Harr.
    { apply first_is_tail in Harr.
      pose proof (skip_ws_length (tail (skip_ws s))) as Hws'.
      destruct (first_is "]" (skip_ws (tail (skip_ws s)))) eqn:Hclose.
      { apply first_is_tail in Hclose. intros [= <- <-]. lia. }
      destruct (parse_value fuel _) as [[x r1]|] eqn:Hx; [|done].
      apply IH in Hx.
      destruct (parse_elements fuel r1) as [[vs r2]|] eqn:Hvs; [|done].
      apply IH in Hvs. intros [= <- <-]. lia. }
    destruct (first_is "{" (skip_ws s)) eqn:Hobj.
    { apply first_is_tail in Hobj.
      pose proof (skip_ws_length (tail (skip_ws s))) as Hws'.
      destruct (first_is "}" (skip_ws (tail (skip_ws s)))) eqn:Hclose.
      { apply first_is_tail in Hclose. intros [= <- <-]. lia. }
      destruct (parse_key _) as [[k r1]|] eqn:Hk; [|done].
      apply parse_key_consumes in Hk.
      destruct (parse_value fuel r1) as [[x r2]|] eqn:Hx; [|done].
      apply IH in Hx.
      destruct (parse_members fuel r2) as [[ms r3]|] eqn:Hms; [|done].
      apply IH in Hms. intros [= <- <-]. lia. }
    intros H%parse_literal_consumes. lia.
  - intros vs r. cbn [parse_elements].
    destruct (first_is "]" (skip_ws s)) eqn:Hclose.
    { apply first_is_tail in Hclose. intros [= <- <-]. lia. }
    destruct (first_is "," (skip_ws s)) eqn:Hcomma; [|done].
    apply first_is_tail in Hcomma.
    destruct (parse_value fuel _) as [[x r1]|] eqn:Hx; [|done].
    apply IH in Hx.
    destruct (parse_elements fuel r1) as [[vs' r2]|] eqn:Hvs; [|done].
    apply IH in Hvs. intros [= <- <-]. lia.
  - intros ms r. cbn [parse_members].
    destruct (first_is "}" (skip_ws s)) eqn:Hclose.
    { apply first_is_tail in Hclose. intros [= <- <-]. lia. }
    destruct (first_is "," (skip_ws s)) eqn:Hcomma; [|done].
    apply first_is_tail in Hcomma.
    destruct (parse_key _) as [[k r1]|] eqn:Hk; [|done].
    apply parse_key_consumes in Hk.
    destruct (parse_value fuel r1) as [[x r2]|] eqn:Hx; [|done].
    apply IH in Hx.
    destruct (parse_members fuel r2) as [[ms' r3]|] eqn:Hms; [|done].
    apply IH in Hms. intros [= <- <-]. lia.
Qed.

(** Above the length of the text, the bound makes no difference to what
    the descent answers: no text is turned away for want of depth. *)
Lemma parse_bound_irrelevant fuel :
  ∀ fuel' s,
    (length s < fuel)%nat → (length s < fuel')%nat →
    parse_value fuel s = parse_value fuel' s ∧
    parse_elements fuel s = parse_elements fuel' s ∧
    parse_members fuel s = parse_members fuel' s.
Proof.
  induction fuel as [|fuel IH]; intros fuel' s Hfuel Hfuel'; [lia|].
  destruct fuel' as [|fuel']; [lia|].
  pose proof (skip_ws_length s) as Hws.
  split_and!.
  - cbn [parse_value].
    destruct (first_is dquote (skip_ws s)); [done|].
    destruct (first_is "[" (skip_ws s)) eqn:Harr.
    { apply first_is_tail in Harr.
      pose proof (skip_ws_length (tail (skip_ws s))) as Hws'.
      destruct (first_is "]" (skip_ws (tail (skip_ws s)))); [done|].
      destruct (IH fuel' (skip_ws (tail (skip_ws s)))) as (-> & _ & _); [lia..|].
      destruct (parse_value fuel' _) as [[x r1]|] eqn:Hx; [|done].
      apply parse_consumes in Hx.
      by destruct (IH fuel' r1) as (_ & -> & _); [lia..|]. }
    destruct (first_is "{" (skip_ws s)) eqn:Hobj; [|done].
    apply first_is_tail in Hobj.
    pose proof (skip_ws_length (tail (skip_ws s))) as Hws'.
    destruct (first_is "}" (skip_ws (tail (skip_ws s)))); [done|].
    destruct (parse_key _) as [[k r1]|] eqn:Hk; [|done].
    apply parse_key_consumes in Hk.
    destruct (IH fuel' r1) as (-> & _ & _); [lia..|].
    destruct (parse_value fuel' r1) as [[x r2]|] eqn:Hx; [|done].
    apply parse_consumes in Hx.
    by destruct (IH fuel' r2) as (_ & _ & ->); [lia..|].
  - cbn [parse_elements].
    destruct (first_is "]" (skip_ws s)); [done|].
    destruct (first_is "," (skip_ws s)) eqn:Hcomma; [|done].
    apply first_is_tail in Hcomma.
    destruct (IH fuel' (tail (skip_ws s))) as (-> & _ & _); [lia..|].
    destruct (parse_value fuel' _) as [[x r1]|] eqn:Hx; [|done].
    apply parse_consumes in Hx.
    by destruct (IH fuel' r1) as (_ & -> & _); [lia..|].
  - cbn [parse_members].
    destruct (first_is "}" (skip_ws s)); [done|].
    destruct (first_is "," (skip_ws s)) eqn:Hcomma; [|done].
    apply first_is_tail in Hcomma.
    destruct (parse_key _) as [[k r1]|] eqn:Hk; [|done].
    apply parse_key_consumes in Hk.
    destruct (IH fuel' r1) as (-> & _ & _); [lia..|].
    destruct (parse_value fuel' r1) as [[x r2]|] eqn:Hx; [|done].
    apply parse_consumes in Hx.
    by destruct (IH fuel' r2) as (_ & _ & ->); [lia..|].
Qed.

End json_bound.

(** ** The state as a value *)

Lemma well_formed_task t : well_formed (value_of_task t).
Proof.
  simpl. split_and!; try done.
  repeat (apply NoDup_cons; split; [rewrite !list_elem_of_In; simpl; intuition discriminate|]).
  apply NoDup_nil_2.
Qed.

Lemma well_formed_items l : well_formed (value_of_items l).
Proof.
  unfold value_of_items. apply well_formed_array.
  apply Forall_fmap, Forall_forall. intros t _. apply well_formed_task.
Qed.

Lemma well_formed_root st : well_formed (value_of_root st).
Proof.
  unfold value_of_root. apply well_formed_object. split.
  - apply NoDup_singleton.
  - apply Forall_singleton. unfold value_of_tasks. apply well_formed_object. split.
    + repeat (apply NoDup_cons; split; [rewrite !list_elem_of_In; simpl; intuition discriminate|]).
      apply NoDup_nil_2.
    + repeat apply Forall_cons_2; try apply Forall_nil_2; simpl; try done.
      apply well_formed_items.
Qed.

Lemma task_of_value_of_task t : task_of_value (value_of_task t) = Some t.
Proof. by destruct t. Qed.

Lemma items_of_value_of_items l : items_of_value (value_of_items l) = Some l.
Proof.
  unfold items_of_value, value_of_items. apply mapM_fmap_Some.
  intros t. apply task_of_value_of_task.
Qed.

Lemma tasks_of_value_of_tasks s : tasks_of_value (value_of_tasks s) = Some s.
Proof.
  unfold tasks_of_value, value_of_tasks, tasks_of_parts. cbn [get property_name own_property String.eqb Ascii.eqb Bool.eqb].
  rewrite items_of_value_of_items. by destruct s.
Qed.

(** ** Startup *)

Lemma initialState_undefined :
  initialState None =
  {| initial_items := Val (VArray []); initial_filter := Val (VString "all") |}.
Proof. reflexivity. Qed.

Lemma configureStore_undefined :
  configureStore None = Normal (FromInitialState (initialState None)) ∧
  tasks_of_start (FromInitialState (initialState None)) = Some default_state.
Proof. split; reflexivity. Qed.

(** A blob with a [tasks] property reaches the store as it is: the defaults
    of [initialState] are for the store that is given no [tasks] at all. *)
Lemma configureStore_preloaded p t :
  p ≠ VNull → get p P_tasks = Val t →
  configureStore (Some p) = Normal (FromPreloadedState (Val t)).
Proof.
  intros Hp Ht. unfold configureStore. rewrite Ht. by destruct p.
Qed.

(** C8: when reading the storage throws, when the storage holds nothing
    under the key, and when what it holds is not a JSON text, [persisted] is
    [undefined], nothing is thrown at startup, and the store starts in the
    default state: [items] empty and [filter] "all". *)
Theorem startup_falls_back_to_default ls :
  getItem ls storage_key = Throw ∨
  getItem ls storage_key = Normal None ∨
  (∃ raw, getItem ls storage_key = Normal (Some raw) ∧ JSON.parse raw = None) →
  persisted ls = None ∧
  initialState (persisted ls) =
    {| initial_items := Val (VArray []); initial_filter := Val (VString "all") |} ∧
  ∃ s, store ls = Normal s ∧
       tasks_of_start s = Some {| items := []; filter := "all" |}.
Proof.
  intros Hcase.
  assert (persisted ls = None) as Hp.
  { unfold persisted.
    destruct Hcase as [-> | [-> | (raw & -> & Hparse)]]; [done | done |].
    rewrite Hparse. by destruct (truthy raw). }
  unfold store. rewrite Hp. split_and!; [done | reflexivity |].
  eexists. split; reflexivity.
Qed.

Lemma startup_falls_back_to_default_witness :
  let blocked := {| available := false; quota := 0; entries := ∅ |} in
  let empty := {| available := true; quota := 5000; entries := ∅ |} in
  let broken := {| available := true; quota := 5000;
                   entries := {[ storage_key := "{oops" ]} |} in
  (∃ s, store blocked = Normal s ∧ tasks_of_start s = Some default_state) ∧
  (∃ s, store empty = Normal s ∧ tasks_of_start s = Some default_state) ∧
  (∃ s, store broken = Normal s ∧ tasks_of_start s = Some default_state).
Proof.
  intros blocked empty broken. split_and!.
  - apply (startup_falls_back_to_default blocked). left. reflexivity.
  - apply (startup_falls_back_to_default empty). right; left. reflexivity.
  - apply (startup_falls_back_to_default broken). right; right.
    exists "{oops". split; [reflexivity | vm_compute; reflexivity].
Defined.

(** ** Persistence *)

Lemma getItem_setItem ls key text ls' :
  setItem ls key text = Normal ls' → getItem ls' key = Normal (Some text).
Proof.
  unfold setItem, getItem.
  destruct (available ls) eqn:Hav; simpl; [|done].
  destruct (Nat.leb _ _); [|done]. intros [= <-]. simpl.
  by rewrite lookup_insert_eq.
Qed.

(** C9: the state the subscriber writes is the state rehydration reads.
    For every state of the store, [JSON.parse] of the text [JSON.stringify]
    gives for it is the state again; so after a write that went through,
    [persisted] is that state, and the store built from it starts with the
    same items, in the same order, each with the same identifier,
    description and [isDone], and with the same filter. *)
Theorem persisted_state_round_trip st ls :
  available ls = true →
  (String.length (JSON.stringify (value_of_root st)) ≤ quota ls)%nat →
  JSON.parse (JSON.stringify (value_of_root st)) = Some (value_of_root st) ∧
  persisted (subscriber st ls) = Some (value_of_root st) ∧
  ∃ s, store (subscriber st ls) = Normal s ∧ tasks_of_start s = Some (tasks st).
Proof.
  intros Hav Hquota.
  pose proof (parse_stringify _ (well_formed_root st)) as Hround.
  assert (persisted (subscriber st ls) = Some (value_of_root st)) as Hp.
  { unfold subscriber.
    destruct (setItem ls storage_key (JSON.stringify (value_of_root st)))
      as [ls'|] eqn:Hset.
    - unfold persisted. rewrite (getItem_setItem _ _ _ _ Hset).
      by rewrite stringify_truthy, Hround.
    - unfold setItem in Hset. rewrite Hav in Hset.
      apply Nat.leb_le in Hquota. by rewrite Hquota in Hset. }
  split_and!; [done | done |].
  unfold store. rewrite Hp.
  exists (FromPreloadedState (Val (value_of_tasks (tasks st)))). split.
  - reflexivity.
  - apply tasks_of_value_of_tasks.
Qed.

Lemma persisted_state_round_trip_witness :
  let st := {| tasks := {| items := [ {| id := "b"; description := "Call Bob";
                                         isDone := false |};
                                      {| id := "a"; description := "Buy milk";
                                         isDone := true |} ];
                           filter := "done" |} |} in
  let ls := {| available := true; quota := 5000; entries := ∅ |} in
  JSON.parse (JSON.stringify (value_of_root st)) = Some (value_of_root st) ∧
  persisted (subscriber st ls) = Some (value_of_root st) ∧
  ∃ s, store (subscriber st ls) = Normal s ∧ tasks_of_start s = Some (tasks st).
Proof.
  intros st ls. apply (persisted_state_round_trip st ls).
  - reflexivity.
  - vm_compute. lia.
Defined.

(** ** The initial state of the slice *)

(** The [initialState] object of the slice falls back property by property
    (what the store is built from is another matter, see
    [partial_blob_reaches_the_store]). For a parsed blob
    whose [tasks] is [t], [items] is [t.items] when that is truthy and the
    empty array otherwise, and [filter] is [t.filter] when that is truthy
    and "all" otherwise, each whatever the other is. So a blob without (or
    with a falsy) [tasks.items] and with a filter gives the empty array
    together with the blob's filter, and a blob with items and without
    [tasks.filter] gives those items together with "all". *)
Theorem initialState_falls_back_per_field p t :
  get p P_tasks = Val t →
  t ≠ VNull →
  initial_items (initialState (Some p)) = js_or (get t P_items) (Val (VArray [])) ∧
  initial_filter (initialState (Some p)) =
    js_or (get t P_filter) (Val (VString "all")) ∧
  (∀ f, truthy_jsval (get t P_items) = false →
        get t P_filter = Val f → truthy_value f = true →
        initialState (Some p) =
          {| initial_items := Val (VArray []); initial_filter := Val f |}) ∧
  (∀ i, get t P_items = Val i → truthy_value i = true →
        truthy_jsval (get t P_filter) = false →
        initialState (Some p) =
          {| initial_items := Val i; initial_filter := Val (VString "all") |}).
Proof.
  intros Htasks Hnull.
  assert (truthy_value p = true) as Hp.
  { destruct p; simpl in Htasks; try discriminate; done. }
  assert (∀ q, persisted_and (Some p) (λ p, optional_get (get p P_tasks) q) =
               get t q) as Hget.
  { intros q. unfold persisted_and. rewrite Hp, Htasks.
    unfold optional_get. by destruct t. }
  unfold initialState. rewrite !Hget. split_and!.
  - done.
  - done.
  - intros f Hitems Hfilter Hf. unfold js_or.
    by rewrite Hitems, Hfilter; simpl; rewrite Hf.
  - intros i Hitems Hi Hfilter. unfold js_or.
    by rewrite Hfilter, Hitems; simpl; rewrite Hi.
Qed.

Lemma initialState_falls_back_per_field_witness :
  let only_filter := VObject [("filter", VString "done")] in
  let some_items := VArray [value_of_task {| id := "a"; description := "Buy milk";
                                             isDone := true |}] in
  let only_items := VObject [("items", some_items)] in
  initialState (Some (VObject [("tasks", only_filter)])) =
    {| initial_items := Val (VArray []); initial_filter := Val (VString "done") |} ∧
  initialState (Some (VObject [("tasks", only_items)])) =
    {| initial_items := Val some_items; initial_filter := Val (VString "all") |}.
Proof.
  intros only_filter some_items only_items. split.
  - destruct (initialState_falls_back_per_field
                (VObject [("tasks", only_filter)]) only_filter)
      as (_ & _ & H & _); [reflexivity | discriminate |].
    apply (H (VString "done")); reflexivity.
  - destruct (initialState_falls_back_per_field
                (VObject [("tasks", only_items)]) only_items)
      as (_ & _ & _ & H); [reflexivity | discriminate |].
    apply (H some_items); reflexivity.
Defined.

(** ** A partial blob at startup *)

(** C10, at the failing input: the storage holds the text of
    [{ tasks: { filter: "done" } }]. The slice's [initialState] falls back
    property by property, to the empty array and the filter "done"; but the
    store is built with [preloadedState: persisted], which has a [tasks]
    property, so the slice starts from that object as it is: its [items] is
    [undefined], and it is no state of the data model. *)
Theorem partial_blob_reaches_the_store :
  let partial := VObject [("filter", VString "done")] in
  let blob := VObject [("tasks", partial)] in
  let ls := {| available := true; quota := 5000;
               entries := {[ storage_key := JSON.stringify blob ]} |} in
  persisted ls = Some blob ∧
  initialState (persisted ls) =
    {| initial_items := Val (VArray []); initial_filter := Val (VString "done") |} ∧
  store ls = Normal (FromPreloadedState (Val partial)) ∧
  get partial P_items = Undefined ∧
  tasks_of_start (FromPreloadedState (Val partial)) = None ∧
  store ls ≠ Normal (FromInitialState (initialState (persisted ls))).
Proof.
  intros partial blob ls.
  assert (persisted ls = Some blob) as Hp by (vm_compute; reflexivity).
  unfold store. rewrite Hp. by split_and!.
Qed.

(** ** The example of the specification *)

(** From the empty store: two tasks added, the older one toggled, the filter
    set to "done"; the list shown is the older task alone, done. *)
Example buy_milk_call_bob :
  let s0 := {| tasks := default_state |} in
  let s1 := dispatch s0 (addTask "id-1" "Buy milk") in
  let s2 := dispatch s1 (addTask "id-2" "Call Bob") in
  let s3 := dispatch s2 (toggleDone "id-1") in
  let s4 := dispatch s3 (setFilter "done") in
  items (tasks s2) =
    [ {| id := "id-2"; description := "Call Bob"; isDone := false |};
      {| id := "id-1"; description := "Buy milk"; isDone := false |} ] ∧
  ListTask_filtered (items (tasks s4)) (filter (tasks s4)) =
    [ {| id := "id-1"; description := "Buy milk"; isDone := true |} ].
Proof. split; reflexivity. Qed.

(* ================================================================= *)
(** * Further properties of the code *)

(** ** Trimming *)

Section trimming.
Import JsString.

Lemma trimStart_chars_idem l :
  trimStart_chars (trimStart_chars l) = trimStart_chars l.
Proof.
  induction l as [|c l IH]; simpl; [done|].
  destruct (isWhiteSpace c) eqn:Hc; [done|]. simpl. by rewrite Hc.
Qed.

Lemma trimStart_chars_snoc l c :
  trimStart_chars (l ++ [c]) =
  match trimStart_chars l with
  | [] => trimStart_chars [c]
  | _ :: _ => trimStart_chars l ++ [c]
  end.
Proof.
  induction l as [|x l IH]; simpl; [done|].
  destruct (isWhiteSpace x); [done|]. done.
Qed.

(** [trimEnd_chars], from the front of the list. *)
Lemma trimEnd_chars_cons c l :
  trimEnd_chars (c :: l) =
  match trimEnd_chars l with
  | [] => if isWhiteSpace c then [] else [c]
  | _ :: _ => c :: trimEnd_chars l
  end.
Proof.
  unfold trimEnd_chars. simpl rev. rewrite trimStart_chars_snoc.
  destruct (trimStart_chars (rev l)) as [|y t] eqn:Ht.
  - simpl. by destruct (isWhiteSpace c).
  - rewrite rev_app_distr. simpl.
    destruct (rev t ++ [y]) eqn:Hr; [by destruct (rev t)|done].
Qed.

Lemma trimEnd_chars_idem l :
  trimEnd_chars (trimEnd_chars l) = trimEnd_chars l.
Proof.
  unfold trimEnd_chars. by rewrite rev_involutive, trimStart_chars_idem.
Qed.

Lemma trimStart_trimEnd_chars l :
  trimStart_chars (trimEnd_chars l) = trimEnd_chars (trimStart_chars l).
Proof.
  induction l as [|c l IH]; [done|].
  rewrite trimEnd_chars_cons. simpl trimStart_chars at 2.
  destruct (isWhiteSpace c) eqn:Hc.
  - rewrite <- IH. destruct (trimEnd_chars l); simpl; by rewrite ?Hc.
  - rewrite trimEnd_chars_cons.
    destruct (trimEnd_chars l); simpl; by rewrite Hc.
Qed.

Lemma trim_idem s : trim (trim s) = trim s.
Proof.
  unfold trim. rewrite list_ascii_of_string_of_list_ascii.
  by rewrite trimStart_trimEnd_chars, trimStart_chars_idem, trimEnd_chars_idem.
Qed.

End trimming.

(** ** The array under [toggleDone] and [editTask] *)

Lemma modify_first_cons i f t l :
  modify_first i f (t :: l) =
  if decide (id t = i) then f t :: l else t :: modify_first i f l.
Proof.
  unfold modify_first, tasksSlice.find_by_id. simpl.
  destruct (decide (id t = i)); [done|].
  by destruct (list_find (λ x, id x = i) l) as [[k x]|].
Qed.

Lemma toggleDone_modify state i :
  tasksSlice.toggleDone state i =
  {| items := modify_first i flipped (items state); filter := filter state |}.
Proof.
  unfold tasksSlice.toggleDone, modify_first.
  destruct (tasksSlice.find_by_id i (items state)) as [[k t]|]; [done|].
  by destruct state.
Qed.

Lemma editTask_modify state i d :
  trim d ≠ "" →
  tasksSlice.editTask state (i, d) =
  {| items := modify_first i (described (trim d)) (items state);
     filter := filter state |}.
Proof.
  intros Hd%truthy_nonempty. unfold tasksSlice.editTask, modify_first.
  destruct (tasksSlice.find_by_id i (items state)) as [[k t]|].
  - by rewrite Hd.
  - by destruct state.
Qed.

Lemma modify_first_fmap {B} (p : Task → B) i f l :
  (∀ t, p (f t) = p t) → p <$> modify_first i f l = p <$> l.
Proof.
  intros Hp. induction l as [|t l IH]; [done|].
  rewrite modify_first_cons. destruct (decide (id t = i)).
  - by rewrite !fmap_cons, Hp.
  - by rewrite !fmap_cons, IH.
Qed.

Lemma modify_first_commute i j f g l :
  (∀ t, id (f t) = id t) → (∀ t, id (g t) = id t) →
  (i = j → ∀ t, f (g t) = g (f t)) →
  modify_first i f (modify_first j g l) = modify_first j g (modify_first i f l).
Proof.
  intros Hf Hg Hfg. induction l as [|t l IH]; [done|].
  rewrite !(modify_first_cons _ _ t).
  destruct (decide (id t = i)) as [Hi|Hi], (decide (id t = j)) as [Hj|Hj];
    rewrite !modify_first_cons, ?Hf, ?Hg;
    repeat case_decide; try congruence.
  rewrite Hfg; congruence.
Qed.

Lemma modify_first_twice i f g l :
  (∀ t, id (g t) = id t) →
  modify_first i f (modify_first i g l) = modify_first i (f ∘ g) l.
Proof.
  intros Hg. induction l as [|t l IH]; [done|].
  rewrite !(modify_first_cons _ _ t). destruct (decide (id t = i)).
  - rewrite modify_first_cons, Hg. by case_decide.
  - rewrite modify_first_cons. case_decide; congruence.
Qed.

Lemma fmap_if_absent i (f : Task → Task) l :
  i ∉ ids l → (λ t, if decide (id t = i) then f t else t) <$> l = l.
Proof.
  induction l as [|t l IH]; [done|].
  change (ids (t :: l)) with (id t :: ids l).
  intros [Hne Hl]%not_elem_of_cons. rewrite fmap_cons, IH by done.
  case_decide; congruence.
Qed.

Lemma modify_first_NoDup i f l :
  NoDup (ids l) →
  modify_first i f l = (λ t, if decide (id t = i) then f t else t) <$> l.
Proof.
  induction l as [|t l IH]; [done|].
  change (ids (t :: l)) with (id t :: ids l). intros [Ht Hl]%NoDup_cons.
  rewrite modify_first_cons, fmap_cons. destruct (decide (id t = i)) as [Hi|Hi].
  - rewrite fmap_if_absent; [done|]. by rewrite <- Hi.
  - f_equal. by apply IH.
Qed.

Lemma flipped_described d t : flipped (described d t) = described d (flipped t).
Proof. done. Qed.

Lemma dispatch_toggleDone st i :
  dispatch st (toggleDone i) =
  {| tasks := {| items := modify_first i flipped (items (tasks st));
                 filter := filter (tasks st) |} |}.
Proof. unfold dispatch, toggleDone. simpl. by rewrite toggleDone_modify. Qed.

Lemma dispatch_editTask st i d :
  trim d ≠ "" →
  dispatch st (editTask i d) =
  {| tasks := {| items := modify_first i (described (trim d)) (items (tasks st));
                 filter := filter (tasks st) |} |}.
Proof.
  intros Hd. unfold dispatch, editTask. cbn [tasks_reducer].
  by rewrite editTask_modify.
Qed.

Lemma dispatch_editTask_blank st i d :
  trim d = "" → dispatch st (editTask i d) = st.
Proof.
  intros Hd. unfold dispatch, editTask. cbn [tasks_reducer].
  rewrite editTask_blank by done. by destruct st.
Qed.

(** ** What the operations leave alone *)

(** X1: [toggleDone], [editTask] and [setFilter] never add, remove or
    reorder tasks: the identifiers of [items], in order, are what they were.
    [toggleDone] changes no description, [editTask] changes no [isDone], and
    [setFilter] leaves [items] as it is. *)
Theorem toggle_edit_filter_keep_the_tasks st :
  (∀ i, ids (items (tasks (dispatch st (toggleDone i)))) = ids (items (tasks st)) ∧
        description <$> items (tasks (dispatch st (toggleDone i))) =
        description <$> items (tasks st)) ∧
  (∀ i d, ids (items (tasks (dispatch st (editTask i d)))) = ids (items (tasks st)) ∧
          isDone <$> items (tasks (dispatch st (editTask i d))) =
          isDone <$> items (tasks st)) ∧
  (∀ v, items (tasks (dispatch st (setFilter v))) = items (tasks st)).
Proof.
  split_and!.
  - intros i. rewrite dispatch_toggleDone. simpl. unfold ids.
    by rewrite !modify_first_fmap.
  - intros i d. destruct (decide (trim d = "")) as [Hd|Hd].
    + by rewrite dispatch_editTask_blank.
    + rewrite dispatch_editTask by done. simpl. unfold ids.
      by rewrite !modify_first_fmap.
  - done.
Qed.

(** ** Editing again *)

(** X2: of two edits of the same identifier the later one wins, unless its
    trimmed description is empty, in which case it is the earlier one that
    stands. In particular [editTask] is idempotent: the same edit a second
    time changes nothing more. *)
Theorem editTask_last_edit_wins st i d1 d2 :
  dispatch (dispatch st (editTask i d1)) (editTask i d2) =
    (if decide (trim d2 = "") then dispatch st (editTask i d1)
     else dispatch st (editTask i d2)) ∧
  dispatch (dispatch st (editTask i d1)) (editTask i d1) =
    dispatch st (editTask i d1).
Proof.
  assert (∀ d d', trim d' ≠ "" →
            dispatch (dispatch st (editTask i d)) (editTask i d') =
            dispatch st (editTask i d')) as Hwins.
  { intros d d' Hd'. destruct (decide (trim d = "")) as [Hd|Hd].
    - by rewrite (dispatch_editTask_blank st i d).
    - rewrite !dispatch_editTask by done. simpl.
      by rewrite modify_first_twice. }
  split.
  - case_decide as Hd2; [by rewrite dispatch_editTask_blank | by apply Hwins].
  - destruct (decide (trim d1 = "")) as [Hd1|Hd1];
      [by rewrite !dispatch_editTask_blank | by apply Hwins].
Qed.

(** X3: only the trimmed description counts. [editTask] with a description
    and with its trimmed form lead to the same state, and [addTask] builds
    the same action from a description and from its trimmed form. *)
Theorem only_the_trimmed_description_counts st i nid d :
  dispatch st (editTask i (trim d)) = dispatch st (editTask i d) ∧
  addTask nid (trim d) = addTask nid d.
Proof.
  split.
  - unfold dispatch, editTask. cbn [tasks_reducer]. unfold tasksSlice.editTask.
    by rewrite trim_idem.
  - unfold addTask, tasksSlice.addTask_prepare. by rewrite trim_idem.
Qed.

(** ** How the operations compose *)

(** X4: two [toggleDone] commute, whatever the two identifiers. *)
Theorem toggleDone_commute st i j :
  dispatch (dispatch st (toggleDone i)) (toggleDone j) =
  dispatch (dispatch st (toggleDone j)) (toggleDone i).
Proof.
  rewrite !dispatch_toggleDone. simpl. do 2 f_equal.
  by apply modify_first_commute.
Qed.

(** X5: [toggleDone] and [editTask] commute, on the same task as on two
    different ones. *)
Theorem toggleDone_editTask_commute st i j d :
  dispatch (dispatch st (toggleDone i)) (editTask j d) =
  dispatch (dispatch st (editTask j d)) (toggleDone i).
Proof.
  destruct (decide (trim d = "")) as [Hd|Hd].
  - by rewrite !dispatch_editTask_blank.
  - rewrite !dispatch_toggleDone, !dispatch_editTask by done. simpl.
    do 2 f_equal. by apply modify_first_commute.
Qed.

(** X6: two [editTask] of different identifiers commute. *)
Theorem editTask_commute st i j d e :
  i ≠ j →
  dispatch (dispatch st (editTask i d)) (editTask j e) =
  dispatch (dispatch st (editTask j e)) (editTask i d).
Proof.
  intros Hij.
  destruct (decide (trim d = "")) as [Hd|Hd]; [by rewrite !(dispatch_editTask_blank _ i d)|].
  destruct (decide (trim e = "")) as [He|He]; [by rewrite !(dispatch_editTask_blank _ j e)|].
  rewrite !dispatch_editTask by done. simpl. do 2 f_equal.
  by apply modify_first_commute.
Qed.

Lemma editTask_commute_witness :
  let st := {| tasks := {| items := [ {| id := "b"; description := "Call Bob";
                                         isDone := false |};
                                      {| id := "a"; description := "Buy milk";
                                         isDone := true |} ];
                           filter := "all" |} |} in
  dispatch (dispatch st (editTask "a" "Buy tea")) (editTask "b" "Call Ann") =
  dispatch (dispatch st (editTask "b" "Call Ann")) (editTask "a" "Buy tea").
Proof.
  intros st. apply (editTask_commute st "a" "b" "Buy tea" "Call Ann").
  discriminate.
Defined.

Lemma reducer_keeps_filter state a :
  (∀ w, a ≠ SetFilterAction w) → filter (tasks_reducer state a) = filter state.
Proof.
  intros Ha. destruct a as [p|i|[i d]|w|]; simpl; try done.
  - unfold tasksSlice.toggleDone.
    by destruct (tasksSlice.find_by_id i (items state)) as [[k t]|].
  - destruct (tasksSlice.find_by_id i (items state)) as [[k t]|]; [|done].
    by destruct (truthy (trim d)).
  - by destruct (Ha w).
Qed.

Lemma reducer_ignores_filter state a v :
  (∀ w, a ≠ SetFilterAction w) →
  items (tasks_reducer {| items := items state; filter := v |} a) =
  items (tasks_reducer state a).
Proof.
  intros Ha. destruct a as [p|i|[i d]|w|]; simpl; try done.
  - unfold tasksSlice.toggleDone. simpl.
    by destruct (tasksSlice.find_by_id i (items state)) as [[k t]|].
  - destruct (tasksSlice.find_by_id i (items state)) as [[k t]|]; [|done].
    by destruct (truthy (trim d)).
Qed.

(** X7: the filter and the tasks do not interfere. [setFilter] commutes with
    every other action ([addTask], [toggleDone], [editTask], [clearAll]), and
    of two [setFilter] the later one wins. *)
Theorem setFilter_commutes st v a :
  (∀ w, a ≠ SetFilterAction w) →
  dispatch (dispatch st (setFilter v)) a = dispatch (dispatch st a) (setFilter v) ∧
  ∀ w, dispatch (dispatch st (setFilter v)) (setFilter w) = dispatch st (setFilter w).
Proof.
  intros Ha. split; [|done]. unfold dispatch. simpl. f_equal.
  unfold tasksSlice.setFilter at 2.
  rewrite <- (reducer_ignores_filter (tasks st) a v Ha).
  pose proof (reducer_keeps_filter (tasksSlice.setFilter (tasks st) v) a Ha) as Hf.
  unfold tasksSlice.setFilter in *. simpl in Hf.
  destruct (tasks_reducer _ a) as [l f]. simpl in *. by rewrite Hf.
Qed.

Lemma setFilter_commutes_witness :
  let st := {| tasks := {| items := [ {| id := "a"; description := "Buy milk";
                                         isDone := false |} ];
                           filter := "all" |} |} in
  dispatch (dispatch st (setFilter "done")) (toggleDone "a") =
    dispatch (dispatch st (toggleDone "a")) (setFilter "done") ∧
  ∀ w, dispatch (dispatch st (setFilter "done")) (setFilter w) =
       dispatch st (setFilter w).
Proof.
  intros st. apply (setFilter_commutes st "done" (toggleDone "a")).
  intros w. discriminate.
Defined.

(** X8: [clearAll] wipes out what came before and disarms what comes after:
    [clearAll] after any action other than [setFilter] gives the state
    [clearAll] alone gives, and after [clearAll] every [toggleDone] and every
    [editTask] is a no-op. *)
Theorem clearAll_absorbs st a :
  (∀ w, a ≠ SetFilterAction w) →
  dispatch (dispatch st a) clearAll = dispatch st clearAll ∧
  (∀ i, dispatch (dispatch st clearAll) (toggleDone i) = dispatch st clearAll) ∧
  (∀ i d, dispatch (dispatch st clearAll) (editTask i d) = dispatch st clearAll).
Proof.
  intros Ha. split_and!.
  - unfold dispatch, clearAll. simpl. unfold tasksSlice.clearAll.
    by rewrite reducer_keeps_filter.
  - done.
  - done.
Qed.

Lemma clearAll_absorbs_witness :
  let st := {| tasks := {| items := [ {| id := "a"; description := "Buy milk";
                                         isDone := false |} ];
                           filter := "not" |} |} in
  dispatch (dispatch st (addTask "b" "Call Bob")) clearAll = dispatch st clearAll ∧
  (∀ i, dispatch (dispatch st clearAll) (toggleDone i) = dispatch st clearAll) ∧
  (∀ i d, dispatch (dispatch st clearAll) (editTask i d) = dispatch st clearAll).
Proof.
  intros st. apply (clearAll_absorbs st (addTask "b" "Call Bob")).
  intros w. discriminate.
Defined.

(** X9: a task just added is the one its identifier finds, even when an
    older task bears the same identifier: [toggleDone] of the identifier
    marks the new task done and leaves the older tasks alone, and [editTask]
    of it with a description whose trimmed form is not empty gives the state
    that adding the task with that description would have given. *)
Theorem new_task_is_found_first st nid s :
  dispatch (dispatch st (addTask nid s)) (toggleDone nid) =
    {| tasks := {| items := {| id := nid; description := trim s; isDone := true |}
                            :: items (tasks st);
                   filter := filter (tasks st) |} |} ∧
  ∀ d, trim d ≠ "" →
       dispatch (dispatch st (addTask nid s)) (editTask nid d) =
       dispatch st (addTask nid d).
Proof.
  split.
  - rewrite dispatch_toggleDone, dispatch_addTask. simpl.
    rewrite modify_first_cons. by case_decide.
  - intros d Hd. rewrite dispatch_editTask by done. rewrite !dispatch_addTask.
    simpl. rewrite modify_first_cons. by case_decide.
Qed.

Lemma new_task_is_found_first_witness :
  let st := {| tasks := {| items := [ {| id := "a"; description := "Buy milk";
                                         isDone := false |} ];
                           filter := "all" |} |} in
  dispatch (dispatch st (addTask "a" "Call Bob")) (toggleDone "a") =
    {| tasks := {| items := [ {| id := "a"; description := "Call Bob";
                                 isDone := true |};
                              {| id := "a"; description := "Buy milk";
                                 isDone := false |} ];
                   filter := "all" |} |} ∧
  dispatch (dispatch st (addTask "a" "Call Bob")) (editTask "a" " Call Ann ") =
    dispatch st (addTask "a" " Call Ann ").
Proof.
  intros st. destruct (new_task_is_found_first st "a" "Call Bob") as [Htoggle Hedit].
  split.
  - exact Htoggle.
  - apply Hedit. vm_compute. discriminate.
Defined.

(** X10: when no two tasks bear the same identifier, [toggleDone(id)] and
    [editTask(id, d)] act on [items] as a map: every task with the
    identifier is changed, every other task is kept, and nothing moves. *)
Theorem toggle_and_edit_map_over_items st i :
  NoDup (ids (items (tasks st))) →
  items (tasks (dispatch st (toggleDone i))) =
    (λ t, if decide (id t = i)
          then {| id := id t; description := description t;
                  isDone := negb (isDone t) |}
          else t) <$> items (tasks st) ∧
  ∀ d, trim d ≠ "" →
       items (tasks (dispatch st (editTask i d))) =
         (λ t, if decide (id t = i)
               then {| id := id t; description := trim d; isDone := isDone t |}
               else t) <$> items (tasks st).
Proof.
  intros Hnd. split.
  - rewrite dispatch_toggleDone. simpl. by rewrite modify_first_NoDup.
  - intros d Hd. rewrite dispatch_editTask by done. simpl.
    by rewrite modify_first_NoDup.
Qed.

Lemma toggle_and_edit_map_over_items_witness :
  let a := {| id := "a"; description := "Buy milk"; isDone := false |} in
  let b := {| id := "b"; description := "Call Bob"; isDone := false |} in
  let st := {| tasks := {| items := [b; a]; filter := "all" |} |} in
  items (tasks (dispatch st (toggleDone "a"))) =
    [b; {| id := "a"; description := "Buy milk"; isDone := true |}] ∧
  items (tasks (dispatch st (editTask "a" " Buy tea "))) =
    [b; {| id := "a"; description := "Buy tea"; isDone := false |}].
Proof.
  intros a b st.
  destruct (toggle_and_edit_map_over_items st "a") as [Htoggle Hedit].
  - repeat constructor; rewrite ?list_elem_of_In; simpl; intuition discriminate.
  - split.
    + exact Htoggle.
    + apply (Hedit " Buy tea "). vm_compute. discriminate.
Defined.

(** ** The view: what reaches the store *)

Lemma trimmed_text_trim d : trim d ≠ "" → trimmed_text (trim d).
Proof. intros Hd. split; [done | apply trim_idem]. Qed.

Lemma modify_first_Forall (P : Task → Prop) i f l :
  (∀ t, P t → P (f t)) → Forall P l → Forall P (modify_first i f l).
Proof.
  intros Hf. induction l as [|t l IH]; [done|].
  intros [Ht Hl]%Forall_cons. rewrite modify_first_cons.
  case_decide; apply Forall_cons; auto.
Qed.

Lemma valid_button_value b : valid_filter (button_value b).
Proof. destruct b; [by left | by right; left | by right; right]. Qed.

Lemma AddTask_onSubmit_eq nid text st :
  AddTask_onSubmit nid text st =
  if decide (trim text = "") then (text, st)
  else ("", dispatch st (addTask nid text)).
Proof.
  unfold AddTask_onSubmit.
  destruct (Nat.eqb (String.length (trim text)) 0) eqn:Hlen.
  - apply length_zero_empty in Hlen. by case_decide.
  - case_decide as Hd; [|done]. apply length_zero_empty in Hd. congruence.
Qed.

Lemma data_model_cons t state :
  id t ∉ ids (items state) → trimmed_text (description t) →
  data_model state →
  data_model {| items := t :: items state; filter := filter state |}.
Proof.
  intros Hfresh Ht [[Hnd Hfilter] Hdesc]. split; [split|].
  - change (NoDup (id t :: ids (items state))). by apply NoDup_cons.
  - done.
  - by apply Forall_cons.
Qed.

Lemma data_model_modify_first i f state :
  (∀ t, id (f t) = id t) →
  (∀ t, trimmed_text (description t) → trimmed_text (description (f t))) →
  data_model state →
  data_model {| items := modify_first i f (items state); filter := filter state |}.
Proof.
  intros Hid Hf [[Hnd Hfilter] Hdesc]. split; [split|].
  - simpl. unfold ids. by rewrite modify_first_fmap.
  - done.
  - by apply modify_first_Forall.
Qed.

(** X11: the form never lets an empty description into the store. Whatever
    the text, [onSubmit] either leaves text and store as they are (the
    trimmed text is empty), or clears the text and puts one task in front of
    [items], not done, whose description is the trimmed text: not empty, and
    with no white space at either end. *)
Theorem AddTask_onSubmit_outcome nid text st :
  (trim text = "" ∧ AddTask_onSubmit nid text st = (text, st)) ∨
  (trim text ≠ "" ∧ trim (trim text) = trim text ∧
   AddTask_onSubmit nid text st =
     ("", {| tasks := {| items := {| id := nid; description := trim text;
                                     isDone := false |} :: items (tasks st);
                         filter := filter (tasks st) |} |})).
Proof.
  rewrite AddTask_onSubmit_eq. case_decide as Hd.
  - by left.
  - right. split_and!; [done | apply trim_idem | done].
Qed.

(** X12: through the view the data model holds. From a state in which no
    two tasks bear the same identifier, the filter is one of "all", "done",
    "not", and every description is non-empty trimmed text, each handler of
    the view (submitting the form, checking a task, saving an edit, clicking
    a filter button, clicking Clear) leads to such a state again, the
    identifier drawn for a submitted task being a new one. *)
Theorem view_keeps_the_data_model st e :
  data_model (tasks st) →
  fresh_event st e →
  data_model (tasks (view_step st e)).
Proof.
  intros Hdm Hfresh.
  destruct e as [nid text|task|task row|b|]; cbn [view_step].
  - rewrite AddTask_onSubmit_eq. case_decide as Hd; [done|].
    rewrite dispatch_addTask. cbn [snd tasks].
    apply (data_model_cons {| id := nid; description := trim text;
                              isDone := false |});
      [done | by apply trimmed_text_trim | done].
  - unfold Task_onCheck. rewrite dispatch_toggleDone. cbn [tasks].
    by apply data_model_modify_first.
  - unfold Task_save. destruct (truthy (trim (draft row))) eqn:Hd; [|done].
    apply truthy_nonempty in Hd. cbn [snd].
    rewrite dispatch_editTask by done. cbn [tasks].
    apply data_model_modify_first; [done | | done].
    intros t _. by apply trimmed_text_trim.
  - destruct Hdm as [[Hnd _] Hdesc].
    split; [split|]; [done | apply valid_button_value | done].
  - destruct Hdm as [[_ Hfilter] _].
    split; [split|]; [constructor | done | constructor].
Qed.

Lemma view_keeps_the_data_model_witness :
  let st := {| tasks := {| items := [ {| id := "a"; description := "Buy milk";
                                         isDone := false |} ];
                           filter := "all" |} |} in
  data_model (tasks (view_step st (SubmitForm "b" "  Call Bob "))).
Proof.
  intros st. apply (view_keeps_the_data_model st (SubmitForm "b" "  Call Bob ")).
  - split; [split|].
    + apply NoDup_singleton.
    + by left.
    + repeat constructor. discriminate.
  - simpl. rewrite list_elem_of_In. simpl. intuition discriminate.
Defined.

(** X13: opening a task for editing and saving it untouched changes nothing
    in the store. In a state of the data model, for a task [t] of [items],
    [save] with the draft the row mounts with (the description of [t])
    leaves the store as it is and closes the editor. *)
Theorem save_untouched_draft st t :
  data_model (tasks st) →
  t ∈ items (tasks st) →
  Task_save t (Task_onEdit (Task_mount t)) st =
    ({| isEditing := false; draft := description t |}, st).
Proof.
  intros [[Hnd _] Hdesc] Ht.
  destruct (proj1 (Forall_forall _ _) Hdesc t Ht) as [Hne Htrim].
  unfold Task_save, Task_onEdit, Task_mount. simpl.
  rewrite (proj2 (truthy_nonempty _)) by (by rewrite Htrim).
  f_equal. rewrite dispatch_editTask by (by rewrite Htrim).
  rewrite modify_first_NoDup by done. rewrite Htrim.
  destruct st as [[l f]]. simpl in *. do 2 f_equal.
  rewrite <- (list_fmap_id l) at 2. apply list_fmap_ext.
  intros k x Hx. simpl. case_decide as Hid; [|done].
  assert (x = t) as ->; [|by destruct t].
  apply list_elem_of_lookup in Ht as [k' Hk'].
  assert (k = k') as ->; [|congruence].
  apply (NoDup_lookup (ids l) k k' (id t)); [done|..];
    unfold ids; rewrite list_lookup_fmap; [by rewrite Hx; simpl; rewrite Hid | by rewrite Hk'].
Qed.

Lemma save_untouched_draft_witness :
  let t := {| id := "a"; description := "Buy milk"; isDone := false |} in
  let st := {| tasks := {| items := [t]; filter := "all" |} |} in
  Task_save t (Task_onEdit (Task_mount t)) st =
    ({| isEditing := false; draft := "Buy milk" |}, st).
Proof.
  intros t st. apply (save_untouched_draft st t).
  - split; [split|].
    + apply NoDup_singleton.
    + by left.
    + repeat constructor. discriminate.
  - apply list_elem_of_In. by left.
Defined.

(** ** The filter bar *)

(** X14: after a click on a filter button that button, and no other, is
    drawn as the active one; and in any state some button is drawn active
    exactly when the filter is one of "all", "done", "not". *)
Theorem FilterBar_active_button st :
  (∀ b b', FilterBar_active (FilterBar_onClick b st) b' = true ↔ b' = b) ∧
  ((∃ b, FilterBar_active st b = true) ↔ valid_filter (filter (tasks st))).
Proof.
  split.
  - intros b b'. unfold FilterBar_active, FilterBar_onClick. simpl.
    rewrite String.eqb_eq. split; [|by intros ->].
    by destruct b, b'.
  - unfold FilterBar_active. split.
    + intros [b Hb%String.eqb_eq]. rewrite Hb. apply valid_button_value.
    + intros [H|[H|H]]; [exists AllButton | exists DoneButton | exists NotDoneButton];
        by apply String.eqb_eq.
Qed.

(** ** The list *)

Lemma ListTask_filtered_done l :
  ListTask_filtered l "done" = List.filter (λ t, isDone t) l.
Proof. reflexivity. Qed.

Lemma ListTask_filtered_not l :
  ListTask_filtered l "not" = List.filter (λ t, negb (isDone t)) l.
Proof. reflexivity. Qed.

Lemma ListTask_filtered_other l f :
  f ≠ "done" → f ≠ "not" → ListTask_filtered l f = l.
Proof.
  intros Hd%String.eqb_neq Hn%String.eqb_neq. unfold ListTask_filtered.
  by rewrite Hd, Hn.
Qed.

Lemma ListTask_filtered_cases l f :
  ListTask_filtered l f = l ∨
  ListTask_filtered l f = List.filter (λ t, isDone t) l ∨
  ListTask_filtered l f = List.filter (λ t, negb (isDone t)) l.
Proof.
  unfold ListTask_filtered.
  destruct (String.eqb f "done"); [by right; left|].
  destruct (String.eqb f "not"); [by right; right | by left].
Qed.

Lemma filter_sublist {A} (p : A → bool) l : sublist (List.filter p l) l.
Proof.
  induction l as [|x l IH]; simpl; [done|].
  destruct (p x); by constructor.
Qed.

Lemma filter_filter {A} (p : A → bool) l :
  List.filter p (List.filter p l) = List.filter p l.
Proof.
  induction l as [|x l IH]; simpl; [done|].
  destruct (p x) eqn:Hp; simpl; by rewrite ?Hp, IH.
Qed.

Lemma filter_nil_Forall {A} (p : A → bool) l :
  List.filter p l = [] ↔ Forall (λ x, p x = false) l.
Proof.
  induction l as [|x l IH]; simpl.
  - split; [constructor | done].
  - rewrite Forall_cons. destruct (p x); [|tauto].
    split; [done | by intros [Hp _]].
Qed.

(** X15: the list shown never invents, repeats or reorders tasks: for every
    filter it is a sublist of [items]; filtering what is shown again changes
    nothing; and a filter that is neither "done" nor "not" (such as "all",
    or a value [setFilter] was given by mistake) shows every task. *)
Theorem ListTask_filtered_sublist l f :
  sublist (ListTask_filtered l f) l ∧
  ListTask_filtered (ListTask_filtered l f) f = ListTask_filtered l f ∧
  (f ≠ "done" → f ≠ "not" → ListTask_filtered l f = l).
Proof.
  split_and!.
  - destruct (ListTask_filtered_cases l f) as [-> | [-> | ->]];
      [done | apply filter_sublist..].
  - unfold ListTask_filtered.
    destruct (String.eqb f "done"); [apply filter_filter|].
    destruct (String.eqb f "not"); [apply filter_filter | done].
  - apply ListTask_filtered_other.
Qed.

Lemma ListTask_filtered_sublist_witness :
  ListTask_filtered [ {| id := "a"; description := "Buy milk"; isDone := true |} ]
                    "bogus" =
  [ {| id := "a"; description := "Buy milk"; isDone := true |} ].
Proof.
  apply (ListTask_filtered_sublist
           [ {| id := "a"; description := "Buy milk"; isDone := true |} ] "bogus");
    discriminate.
Defined.

(** X16: the views under "done" and under "not" split [items] in two: every
    task is in exactly one of them, so the two together are a rearrangement
    of [items] and their lengths add up to the count of the footer. *)
Theorem done_and_not_done_partition st :
  (ListTask_filtered (items (tasks st)) "done" ++
   ListTask_filtered (items (tasks st)) "not") ≡ₚ items (tasks st) ∧
  (length (ListTask_filtered (items (tasks st)) "done") +
   length (ListTask_filtered (items (tasks st)) "not") = AppInner_count st)%nat ∧
  (∀ t, t ∈ items (tasks st) →
        ((t ∈ ListTask_filtered (items (tasks st)) "done") ∧
         (t ∉ ListTask_filtered (items (tasks st)) "not")) ∨
        ((t ∉ ListTask_filtered (items (tasks st)) "done") ∧
         (t ∈ ListTask_filtered (items (tasks st)) "not"))).
Proof.
  rewrite ListTask_filtered_done, ListTask_filtered_not. unfold AppInner_count.
  assert ((List.filter (λ t, isDone t) (items (tasks st)) ++
           List.filter (λ t, negb (isDone t)) (items (tasks st)))
          ≡ₚ items (tasks st)) as Hperm.
  { induction (items (tasks st)) as [|t l IH]; simpl; [done|].
    destruct (isDone t); simpl.
    - by rewrite IH.
    - by rewrite <- Permutation_middle, IH. }
  split_and!.
  - done.
  - by rewrite <- length_app, Hperm.
  - intros t Ht. rewrite !list_elem_of_In, !List.filter_In, <- !list_elem_of_In.
    destruct (isDone t); simpl; [left | right];
      (split; [tauto | intros [_ Hb]; discriminate Hb]) ||
      (split; [intros [_ Hb]; discriminate Hb | tauto]).
Qed.

(** X17: which of its three outputs [ListTask] gives. It says there are no
    tasks yet exactly when [items] is empty; it says no task matches exactly
    when [items] is not empty and either the filter is "done" and no task is
    done, or the filter is "not" and every task is done; otherwise it shows
    the filtered list, which then is not empty, each element keyed by the
    identifier of its task. *)
Theorem ListTask_output st :
  (ListTask st = NoTasksYet ↔ items (tasks st) = []) ∧
  (ListTask st = NoTasksMatch ↔
     items (tasks st) ≠ [] ∧
     ((filter (tasks st) = "done" ∧ Forall (λ t, isDone t = false) (items (tasks st))) ∨
      (filter (tasks st) = "not" ∧ Forall (λ t, isDone t = true) (items (tasks st))))) ∧
  (∀ rows, ListTask st = TaskElements rows →
     rows ≠ [] ∧
     rows = (λ t, (id t, t)) <$>
            ListTask_filtered (items (tasks st)) (filter (tasks st))).
Proof.
  unfold ListTask. destruct st as [[l f]]. simpl.
  destruct l as [|t l]; simpl.
  { split_and!; [done | split; [done | by intros [Hne _]] | done]. }
  destruct (ListTask_filtered (t :: l) f) as [|x k] eqn:Hview; simpl.
  - split_and!; [done | | done].
    split; [intros _ | done]. split; [done|].
    unfold ListTask_filtered in Hview.
    destruct (String.eqb f "done") eqn:Hd.
    { apply String.eqb_eq in Hd. left. split; [done|].
      by apply filter_nil_Forall in Hview. }
    destruct (String.eqb f "not") eqn:Hn; [|done].
    apply String.eqb_eq in Hn. right. split; [done|].
    apply filter_nil_Forall in Hview.
    eapply Forall_impl; [exact Hview|]. intros y Hy. simpl in Hy.
    by destruct (isDone y).
  - split_and!; [done | | intros rows [= <-]; done].
    split; [done|]. intros [_ [[-> Hall]|[-> Hall]]].
    + rewrite ListTask_filtered_done in Hview.
      assert (List.filter (λ y, isDone y) (t :: l) = []) as Hnil
        by (by apply filter_nil_Forall).
      by rewrite Hnil in Hview.
    + rewrite ListTask_filtered_not in Hview.
      assert (Forall (λ y, negb (isDone y) = false) (t :: l)) as Hall'.
      { eapply Forall_impl; [exact Hall|]. intros y Hy. simpl. by rewrite Hy. }
      apply filter_nil_Forall in Hall'. by rewrite Hall' in Hview.
Qed.

(** X18: when no two tasks bear the same identifier, the keys of the
    elements [ListTask] renders are pairwise distinct. *)
Theorem ListTask_keys_distinct st rows :
  NoDup (ids (items (tasks st))) →
  ListTask st = TaskElements rows →
  NoDup (rows.*1).
Proof.
  intros Hnd Hrows. unfold ListTask in Hrows.
  destruct (Nat.eqb (length (items (tasks st))) 0); [done|].
  destruct (Nat.eqb (length (ListTask_filtered _ _)) 0); [done|].
  injection Hrows as <-. rewrite <- list_fmap_compose.
  change (NoDup (ids (ListTask_filtered (items (tasks st)) (filter (tasks st))))).
  eapply sublist_NoDup; [exact Hnd|]. unfold ids. apply fmap_sublist.
  destruct (ListTask_filtered_cases (items (tasks st)) (filter (tasks st)))
    as [-> | [-> | ->]]; [done | apply filter_sublist..].
Qed.

Lemma ListTask_keys_distinct_witness :
  let a := {| id := "a"; description := "Buy milk"; isDone := true |} in
  let b := {| id := "b"; description := "Call Bob"; isDone := false |} in
  NoDup ([("b", b); ("a", a)].*1).
Proof.
  intros a b.
  apply (ListTask_keys_distinct {| tasks := {| items := [b; a]; filter := "all" |} |}).
  - repeat constructor; rewrite ?list_elem_of_In; simpl; intuition discriminate.
  - reflexivity.
Defined.

Lemma elem_of_ListTask_filtered x l f :
  x ∈ ListTask_filtered l f ↔
  x ∈ l ∧ (f = "done" → isDone x = true) ∧ (f = "not" → isDone x = false).
Proof.
  unfold ListTask_filtered.
  destruct (String.eqb f "done") eqn:Hd.
  { apply String.eqb_eq in Hd as ->.
    rewrite list_elem_of_In, List.filter_In, <- list_elem_of_In.
    split.
    - intros [Hin Hb]. split_and!; [done | done | discriminate].
    - intros (Hin & Hb & _). split; [done | by apply Hb]. }
  apply String.eqb_neq in Hd.
  destruct (String.eqb f "not") eqn:Hn.
  { apply String.eqb_eq in Hn as ->.
    rewrite list_elem_of_In, List.filter_In, <- list_elem_of_In.
    split.
    - intros [Hin Hb]. split_and!; [done | discriminate |].
      intros _. by destruct (isDone x).
    - intros (Hin & _ & Hb). split; [done|]. by rewrite Hb. }
  apply String.eqb_neq in Hn. split; [|by intros [Hin _]].
  intros Hin. by split_and!.
Qed.

(** X19: checking a task moves that task and no other. When no two tasks
    bear the same identifier, after the checkbox of a task [t] of [items]
    has been changed, the task with [t]'s identifier is [t] with [isDone]
    negated: it is shown under "done" exactly when [t] was not done and
    under "not" exactly when [t] was; and every task with another
    identifier is shown under a filter exactly when it was before. *)
Theorem checking_moves_one_task st t :
  NoDup (ids (items (tasks st))) →
  t ∈ items (tasks st) →
  let st' := Task_onCheck t st in
  let t' := {| id := id t; description := description t;
               isDone := negb (isDone t) |} in
  (∀ x, x ∈ items (tasks st') → id x = id t → x = t') ∧
  (t' ∈ ListTask_filtered (items (tasks st')) "done" ↔ isDone t = false) ∧
  (t' ∈ ListTask_filtered (items (tasks st')) "not" ↔ isDone t = true) ∧
  (∀ x f, id x ≠ id t →
          x ∈ ListTask_filtered (items (tasks st')) f ↔
          x ∈ ListTask_filtered (items (tasks st)) f).
Proof.
  intros Hnd Ht st' t'. subst st'. unfold Task_onCheck.
  rewrite dispatch_toggleDone. cbn [tasks items].
  rewrite modify_first_NoDup by done.
  set (g := λ x : Task, if decide (id x = id t) then flipped x else x).
  assert (∀ y, y ∈ items (tasks st) → id y = id t → y = t) as Huniq.
  { intros y Hy Hid.
    apply list_elem_of_lookup in Hy as [k Hk], Ht as [k' Hk'].
    assert (k = k') as ->; [|congruence].
    apply (NoDup_lookup (ids (items (tasks st))) k k' (id t)); [done|..];
      unfold ids; rewrite list_lookup_fmap; [by rewrite Hk; simpl; rewrite Hid | by rewrite Hk']. }
  assert (t' ∈ g <$> items (tasks st)) as Ht'.
  { apply list_elem_of_fmap. exists t. split; [|done]. unfold g. by case_decide. }
  assert (∀ x, x ∈ g <$> items (tasks st) → id x = id t → x = t') as Hone.
  { intros x (y & -> & Hy)%list_elem_of_fmap Hid. unfold g in *.
    case_decide as Hy'; [by rewrite (Huniq y Hy Hy')|].
    by rewrite (Huniq y Hy Hid). }
  split_and!.
  - exact Hone.
  - rewrite elem_of_ListTask_filtered. subst t'. simpl.
    split; [intros (_ & Hb & _); specialize (Hb eq_refl); by destruct (isDone t)|].
    intros Hb. split_and!; [done | by rewrite Hb | discriminate].
  - rewrite elem_of_ListTask_filtered. subst t'. simpl.
    split; [intros (_ & _ & Hb); specialize (Hb eq_refl); by destruct (isDone t)|].
    intros Hb. split_and!; [done | discriminate | by rewrite Hb].
  - intros x f Hx. rewrite !elem_of_ListTask_filtered.
    apply and_iff_compat_r. rewrite list_elem_of_fmap. split.
    + intros (y & -> & Hy). unfold g in *. by case_decide.
    + intros Hin. exists x. split; [|done]. unfold g. by case_decide.
Qed.

Lemma checking_moves_one_task_witness :
  let a := {| id := "a"; description := "Buy milk"; isDone := false |} in
  let b := {| id := "b"; description := "Call Bob"; isDone := false |} in
  let st := {| tasks := {| items := [b; a]; filter := "not" |} |} in
  let st' := Task_onCheck a st in
  let a' := {| id := "a"; description := "Buy milk"; isDone := true |} in
  (∀ x, x ∈ items (tasks st') → id x = "a" → x = a') ∧
  (a' ∈ ListTask_filtered (items (tasks st')) "done" ↔ false = false) ∧
  (a' ∈ ListTask_filtered (items (tasks st')) "not" ↔ false = true) ∧
  (∀ x f, id x ≠ "a" →
          x ∈ ListTask_filtered (items (tasks st')) f ↔
          x ∈ ListTask_filtered (items (tasks st)) f).
Proof.
  intros a b st.
  apply (checking_moves_one_task st a).
  - repeat constructor; rewrite ?list_elem_of_In; simpl; intuition discriminate.
  - apply list_elem_of_In. simpl. by right; left.
Defined.

(** ** Writing the storage *)

Lemma persisted_after_write st ls :
  available ls = true →
  (String.length (JSON.stringify (value_of_root st)) ≤ quota ls)%nat →
  persisted (subscriber st ls) = Some (value_of_root st).
Proof.
  intros Hav Hquota. unfold subscriber.
  destruct (setItem ls storage_key (JSON.stringify (value_of_root st)))
    as [ls'|] eqn:Hset.
  - unfold persisted. rewrite (getItem_setItem _ _ _ _ Hset).
    by rewrite stringify_truthy, (parse_stringify _ (well_formed_root st)).
  - unfold setItem in Hset. rewrite Hav in Hset.
    apply Nat.leb_le in Hquota. by rewrite Hquota in Hset.
Qed.

Lemma subscriber_keeps_access st ls :
  available (subscriber st ls) = available ls ∧
  quota (subscriber st ls) = quota ls.
Proof.
  unfold subscriber, setItem.
  by destruct (available ls && _).
Qed.

(** X21: the subscriber touches one item of the storage and swallows a
    failed write. After it has run, whatever the state and the storage, the
    items under every other key are what they were; and when the write
    throws, the storage is what it was, so that [persisted] at the next
    start is the state of the last write that went through. *)
Theorem subscriber_writes_one_item st ls :
  (∀ key, key ≠ storage_key →
          getItem (subscriber st ls) key = getItem ls key) ∧
  (setItem ls storage_key (JSON.stringify (value_of_root st)) = Throw →
   subscriber st ls = ls ∧ persisted (subscriber st ls) = persisted ls).
Proof.
  split.
  - intros key Hkey. unfold subscriber, setItem.
    destruct (available ls &&
              Nat.leb (String.length (JSON.stringify (value_of_root st))) (quota ls));
      [|done].
    unfold getItem. simpl. destruct (available ls); [|done].
    by rewrite lookup_insert_ne.
  - intros Hthrow. unfold subscriber. by rewrite Hthrow.
Qed.

Lemma subscriber_writes_one_item_witness :
  let st := {| tasks := {| items := [ {| id := "a"; description := "Buy milk";
                                         isDone := false |} ];
                           filter := "all" |} |} in
  let full := {| available := true; quota := 10;
                 entries := {[ storage_key := "{oops" ]} |} in
  subscriber st full = full ∧ persisted (subscriber st full) = persisted full.
Proof.
  intros st full.
  destruct (subscriber_writes_one_item st full) as [_ Hthrow].
  apply Hthrow. vm_compute. reflexivity.
Defined.

(** ** A session *)

Lemma session_snoc s actions a :
  session s (actions ++ [a]) = store_dispatch (session s actions) a.
Proof. unfold session. by rewrite foldl_app. Qed.

Lemma session_keeps_access s actions :
  available (session s actions).2 = available s.2 ∧
  quota (session s actions).2 = quota s.2.
Proof.
  induction actions as [|a actions IH] using rev_ind; [done|].
  rewrite session_snoc. unfold store_dispatch. cbn [snd].
  destruct (subscriber_keeps_access
              (dispatch (session s actions).1 a) (session s actions).2)
    as [-> ->].
  exact IH.
Qed.

(** Through a session the state of the store is the state the reducer
    alone gives: the storage makes no difference to it. *)
Lemma session_state_ignores_storage st ls actions :
  (session (st, ls) actions).1 = foldl dispatch st actions.
Proof.
  induction actions as [|a actions IH] using rev_ind; [done|].
  rewrite session_snoc, foldl_app. unfold store_dispatch. cbn [fst foldl].
  by rewrite IH.
Qed.

(** X22: what a session leaves behind is its last state. After any
    sequence of actions ending with an action [a], if the storage can be
    used and the text of the final state fits, then at the next start
    [persisted] is the final state and the store starts with the final
    items and filter, whatever became of the earlier writes. *)
Theorem reload_after_session st ls actions a :
  let s' := session (st, ls) (actions ++ [a]) in
  available ls = true →
  (String.length (JSON.stringify (value_of_root s'.1)) ≤ quota ls)%nat →
  persisted s'.2 = Some (value_of_root s'.1) ∧
  ∃ s, store s'.2 = Normal s ∧ tasks_of_start s = Some (tasks s'.1).
Proof.
  intros s' Hav Hquota. subst s'. rewrite session_snoc in *.
  unfold store_dispatch in *. cbn [fst snd] in *.
  destruct (session_keeps_access (st, ls) actions) as [Hav' Hquota'].
  cbn [snd] in Hav', Hquota'.
  set (final := dispatch (session (st, ls) actions).1 a) in *.
  assert (persisted (subscriber final (session (st, ls) actions).2) =
          Some (value_of_root final)) as Hp.
  { apply persisted_after_write; [by rewrite Hav' | by rewrite Hquota']. }
  split; [done|]. unfold store. rewrite Hp.
  exists (FromPreloadedState (Val (value_of_tasks (tasks final)))).
  split; [done | apply tasks_of_value_of_tasks].
Qed.

Lemma reload_after_session_witness :
  let st := {| tasks := default_state |} in
  let ls := {| available := true; quota := 120; entries := ∅ |} in
  let s' := session (st, ls)
              ([addTask "a" "Buy milk"; addTask "b" "Call Bob"] ++ [clearAll]) in
  persisted s'.2 = Some (value_of_root s'.1) ∧
  ∃ s, store s'.2 = Normal s ∧ tasks_of_start s = Some (tasks s'.1).
Proof.
  intros st ls.
  apply (reload_after_session st ls [addTask "a" "Buy milk"; addTask "b" "Call Bob"]
                              clearAll).
  - reflexivity.
  - vm_compute. lia.
Defined.

(** ** The initial state of the slice, again *)

(** X23: a blob without usable [tasks] gives the defaults. When the parsed
    blob is falsy ([null], [false], the empty string), or its [tasks] is
    neither an object nor an array (it is missing, [null], a string or a
    boolean), [initialState] is the empty array with the filter "all". *)
Theorem initialState_without_tasks p :
  truthy_value p = false ∨
  ((∀ l, get p P_tasks ≠ Val (VObject l)) ∧ (∀ l, get p P_tasks ≠ Val (VArray l))) →
  initialState (Some p) =
  {| initial_items := Val (VArray []); initial_filter := Val (VString "all") |}.
Proof.
  assert (truthy_value p = false →
          initialState (Some p) =
          {| initial_items := Val (VArray []);
             initial_filter := Val (VString "all") |}) as Hfalsy.
  { intros Hp. unfold initialState, persisted_and, js_or. rewrite Hp. simpl.
    by rewrite Hp. }
  intros [Hp|[Hobj Harr]]; [by apply Hfalsy|].
  destruct (truthy_value p) eqn:Hp; [|by apply Hfalsy].
  unfold initialState, persisted_and. rewrite Hp.
  destruct (get p P_tasks) as [|t|] eqn:Htasks; [done | | done].
  destruct t as [|b|s|l|l]; [done | done | done | |].
  - by destruct (Harr l).
  - by destruct (Hobj l).
Qed.

Lemma initialState_without_tasks_witness :
  initialState (Some (VObject [("tasks", VString "later")])) =
  {| initial_items := Val (VArray []); initial_filter := Val (VString "all") |}.
Proof.
  apply initialState_without_tasks. right. split; intros l; discriminate.
Defined.

(** X24: a blob whose [tasks] is an array gives a filter that is no string.
    [persisted.tasks?.filter] is then the method arrays inherit under that
    name, which is truthy: [initialState] has the empty array for [items]
    and that method for [filter]. *)
Theorem initialState_array_tasks p l :
  get p P_tasks = Val (VArray l) →
  initialState (Some p) =
  {| initial_items := Val (VArray []); initial_filter := ArrayPrototypeFilter |}.
Proof.
  intros Htasks.
  assert (truthy_value p = true) as Hp.
  { destruct p; simpl in Htasks; try discriminate; done. }
  unfold initialState, persisted_and. by rewrite Hp, Htasks.
Qed.

Lemma initialState_array_tasks_witness :
  initialState (Some (VObject [("tasks", VArray [VBool true])])) =
  {| initial_items := Val (VArray []); initial_filter := ArrayPrototypeFilter |}.
Proof.
  apply (initialState_array_tasks _ [VBool true]). reflexivity.
Defined.

(** X25: [initialState] on a state the program wrote. For the value of any
    state of the store, [items] is the array of that state, empty or not,
    and [filter] is the filter of that state unless it is the empty string,
    for which it is "all". *)
Theorem initialState_of_written_state st :
  initialState (Some (value_of_root st)) =
  {| initial_items := Val (value_of_items (items (tasks st)));
     initial_filter :=
       Val (VString (if decide (filter (tasks st) = "") then "all"
                     else filter (tasks st))) |}.
Proof.
  unfold initialState, persisted_and. simpl. unfold js_or. simpl.
  destruct (decide (filter (tasks st) = "")) as [Hf|Hf].
  - by rewrite Hf.
  - by destruct (filter (tasks st)).
Qed.
